(** * tracking_analysis: the data model and the possession analysis

    A shallow embedding of [tracking_analysis/analysis.py].  The two JSON
    documents are modelled at their schema.  A scalar field is [None] when
    the key is absent or holds JSON null, which [dict.get(key, None)]
    cannot tell apart, and [Some v] when it holds a value of the schema
    type.  An object or list field is [None] when the key is absent and
    [Some] of the object or list otherwise; values of another type than the
    schema's are outside the model.  Python exceptions are values of [exn],
    and every function that can raise returns a [result].  Python floats
    are binary64 numbers, values of [spec_float], and the operations on
    them are those of the IEEE 754 specification at precision 53.

    The classes keep their names as modules, and the methods their names
    inside them.  [Analysis._import_match_data], which reads the two
    files, is an input adapter and has no counterpart here.  Of
    [Analysis.build_location_dataframe] the dict that it builds is
    modelled, as [location_dict]; its conversion to a pandas frame is
    not. *)

From Stdlib Require Import ZArith Lia Floats.SpecFloat.
From stdpp Require Import base option list sorting gmap strings.

Open Scope Z_scope.

(** ** Exceptions and the error monad *)

Inductive exn : Type :=
  | IdMismatchException
  | AttributeError
  | IndexError
  | KeyError
  | TypeError
  | ZeroDivisionError
  | OverflowError.

Inductive result (A : Type) : Type :=
  | Ok (a : A)
  | Raise (e : exn).
Arguments Ok {A} a.
Arguments Raise {A} e.

#[global] Instance result_ret : MRet result := fun A a => Ok a.
#[global] Instance result_bind : MBind result := fun A B f r =>
  match r with
  | Ok a => f a
  | Raise e => Raise e
  end.
#[global] Instance exn_eq_dec : EqDecision exn.
Proof. solve_decision. Defined.

Definition is_ok {A} (r : result A) : bool :=
  match r with Ok _ => true | Raise _ => false end.

(** [[f x for x in l]]: the elements are built left to right and the first
    exception ends the comprehension. *)
Fixpoint comprehension {A B} (f : A → result B) (l : list A) : result (list B) :=
  match l with
  | [] => Ok []
  | a :: l' => b ← f a; bs ← comprehension f l'; Ok (b :: bs)
  end.

(** ** Python numbers: the int and float values a JSON number parses to *)

Inductive pynum : Type :=
  | PyInt (i : Z)
  | PyFloat (f : spec_float).

(** Unary minus. *)
Definition pynum_neg (n : pynum) : pynum :=
  match n with
  | PyInt i => PyInt (- i)
  | PyFloat f => PyFloat (SFopp f)
  end.

(** ** Python dictionaries

    A dict keeps its keys in insertion order; assigning to a key that is
    present replaces the value where the key stands. *)

Section Dict.
Context {K V : Type} `{EqDecision K}.

Definition dict : Type := list (K * V).

Fixpoint dict_get (d : dict) (k : K) : option V :=
  match d with
  | [] => None
  | (k', v) :: d' => if decide (k' = k) then Some v else dict_get d' k
  end.

Fixpoint dict_setitem (d : dict) (k : K) (v : V) : dict :=
  match d with
  | [] => [(k, v)]
  | (k', v') :: d' =>
      if decide (k' = k) then (k', v) :: d' else (k', v') :: dict_setitem d' k v
  end.

(** [{k: v for k, v in items}] and dict displays. *)
Definition dict_of_items (items : list (K * V)) : dict :=
  foldl (fun d kv => dict_setitem d kv.1 kv.2) [] items.

Definition dict_keys (d : dict) : list K := d.*1.
Definition dict_values (d : dict) : list V := d.*2.

(** [d[k]] *)
Definition dict_getitem (d : dict) (k : K) : result V :=
  match dict_get d k with
  | Some v => Ok v
  | None => Raise KeyError
  end.
End Dict.
Arguments dict : clear implicits.

(** [{v: k for k, v in d.items()}] *)
Definition dict_invert {K V} `{EqDecision V} (d : dict K V) : dict V K :=
  dict_of_items (map (fun kv => (kv.2, kv.1)) d).

(** ** Player *)

Module PlayerRoleJson.
Record t : Type := { acronym : option string; id : option Z }.
End PlayerRoleJson.

Module PlayerJson.
Record t : Type := {
  last_name : option string;
  trackable_object : option Z;
  team_id : option Z;
  number : option Z;
  player_role : option PlayerRoleJson.t
}.
End PlayerJson.

Module Player.
Record t : Type := {
  player_json : PlayerJson.t;
  last_name : option string;
  player_id : option Z;
  team_id : option Z;
  number : option Z;
  position : option string;
  position_id : option Z
}.

(** [player_role_dict] is [{}] when the key [player_role] is absent. *)
Definition _get_position_info (player_role_dict : option PlayerRoleJson.t)
  : option string * option Z :=
  match player_role_dict with
  | Some r => (PlayerRoleJson.acronym r, PlayerRoleJson.id r)
  | None => (None, None)
  end.

Definition __init__ (pj : PlayerJson.t) : t :=
  let pos := _get_position_info (PlayerJson.player_role pj) in
  {| player_json := pj;
     last_name := PlayerJson.last_name pj;
     player_id := PlayerJson.trackable_object pj;
     team_id := PlayerJson.team_id pj;
     number := PlayerJson.number pj;
     position := pos.1;
     position_id := pos.2 |}.
End Player.

(** ** Location *)

Module LocationJson.
Record t : Type := {
  x : option pynum;
  y : option pynum;
  z : option pynum;
  trackable_object : option Z;
  track_id : option Z
}.
End LocationJson.

Module Location.
Record t : Type := {
  location_json : LocationJson.t;
  x : option pynum;
  y : option pynum;
  normalized_y : option pynum;
  z : option pynum;
  location_id : option Z;
  track_id : option Z
}.

(** [-y]; unary minus on [None] is a [TypeError]. *)
Definition _flip_y (y : option pynum) : result (option pynum) :=
  match y with
  | Some n => Ok (Some (pynum_neg n))
  | None => Raise TypeError
  end.

(** [period == 2] *)
Definition period_is_2 (period : option Z) : bool :=
  match period with
  | Some p => bool_decide (p = 2)
  | None => false
  end.

Definition __init__ (lj : LocationJson.t) (period : option Z) : result t :=
  let y_ := LocationJson.y lj in
  ny ← (if period_is_2 period then _flip_y y_ else Ok y_);
  Ok {| location_json := lj;
        x := LocationJson.x lj;
        y := y_;
        normalized_y := ny;
        z := LocationJson.z lj;
        location_id := LocationJson.trackable_object lj;
        track_id := LocationJson.track_id lj |}.
End Location.

(** ** Moment *)

Module PossessionJson.
Record t : Type := { trackable_object : option Z; group : option string }.
End PossessionJson.

Module MomentJson.
Record t : Type := {
  frame : option Z;
  time : option string;
  period : option Z;
  data : option (list LocationJson.t);
  possession : option PossessionJson.t
}.
End MomentJson.

Module Moment.
Record t : Type := {
  moment_json : MomentJson.t;
  frame : option Z;
  time : option string;
  half : option Z;
  locations : list Location.t;
  possession_id : option Z;
  possession_group : option string
}.

(** [self._get(POSSESSION)] is [None] when the key is absent, and
    [None.get] is an [AttributeError]. *)
Definition _get_possession (mj : MomentJson.t) : result (option Z * option string) :=
  match MomentJson.possession mj with
  | Some possession_dict =>
      Ok (PossessionJson.trackable_object possession_dict,
          PossessionJson.group possession_dict)
  | None => Raise AttributeError
  end.

Definition __init__ (mj : MomentJson.t) : result t :=
  let half_ := MomentJson.period mj in
  locs ← comprehension (fun l => Location.__init__ l half_)
                       (default [] (MomentJson.data mj));
  poss ← _get_possession mj;
  Ok {| moment_json := mj;
        frame := MomentJson.frame mj;
        time := MomentJson.time mj;
        half := half_;
        locations := locs;
        possession_id := poss.1;
        possession_group := poss.2 |}.
End Moment.

(** ** Match *)

Module TeamJson.
Record t : Type := { acronym : option string; id : option Z }.
End TeamJson.

Module TrackableJson.
Record t : Type := { trackable_object : option Z }.
End TrackableJson.

Module MatchJson.
Record t : Type := {
  home_team : option TeamJson.t;
  away_team : option TeamJson.t;
  pitch_length : option pynum;
  pitch_width : option pynum;
  ball : option TrackableJson.t;
  referees : option (list TrackableJson.t);
  players : option (list PlayerJson.t)
}.
End MatchJson.

Definition BALL : string := "ball".
Definition REFEREE : string := "referee".

Module Match.
Record t : Type := {
  match_json : MatchJson.t;
  structured_json : list MomentJson.t;
  home_team_name : option string;
  home_team_id : option Z;
  away_team_name : option string;
  away_team_id : option Z;
  team_to_id : dict (option string) (option Z);
  id_to_team : dict (option Z) (option string);
  pitch_size : option pynum * option pynum;
  ball_id : option Z;
  referee_id : option Z;
  home_team_players : list Player.t;
  away_team_players : list Player.t;
  all_players : list Player.t;
  id_to_name : dict (option Z) (option string);
  name_to_id : dict (option string) (option Z);
  moments : list Moment.t
}.

(** [self.match_json.get(key, {})] is the empty dict for an absent key. *)
Definition _get_team_info (team : option TeamJson.t) : option string * option Z :=
  match team with
  | Some tj => (TeamJson.acronym tj, TeamJson.id tj)
  | None => (None, None)
  end.

Definition _get_pitch_size (mj : MatchJson.t) : option pynum * option pynum :=
  (MatchJson.pitch_length mj, MatchJson.pitch_width mj).

Definition _get_trackable_object (obj : option TrackableJson.t) : option Z :=
  match obj with
  | Some o => TrackableJson.trackable_object o
  | None => None
  end.

(** [self.match_json.get(key, [])[0].get(TRACKABLE_OBJECT, None)] *)
Definition _get_referee (refs : option (list TrackableJson.t)) : result (option Z) :=
  match default [] refs with
  | [] => Raise IndexError
  | r :: _ => Ok (TrackableJson.trackable_object r)
  end.

Definition _get_player (player_json : PlayerJson.t) : Player.t :=
  Player.__init__ player_json.

(** The loop of [_get_all_players], over the players still to place and
    the two lists built so far. *)
Fixpoint _get_all_players_loop (home_id away_id : option Z)
    (ps : list PlayerJson.t) (home away : list Player.t)
  : result (list Player.t * list Player.t) :=
  match ps with
  | [] => Ok (home, away)
  | p_dict :: ps' =>
      let p := _get_player p_dict in
      if decide (Player.team_id p = home_id)
      then _get_all_players_loop home_id away_id ps' (home ++ [p]) away
      else if decide (Player.team_id p = away_id)
      then _get_all_players_loop home_id away_id ps' home (away ++ [p])
      else Raise IdMismatchException
  end.

(** Returns [(home_team_players, away_team_players, all_players)]. *)
Definition _get_all_players (mj : MatchJson.t) (home_id away_id : option Z)
  : result (list Player.t * list Player.t * list Player.t) :=
  ha ← _get_all_players_loop home_id away_id
         (default [] (MatchJson.players mj)) [] [];
  Ok (ha.1, ha.2, ha.1 ++ ha.2).

(** Returns [(id_to_name, name_to_id)]. *)
Definition _build_lookups (home away : list Player.t) (ball_id_ referee_id_ : option Z)
  : dict (option Z) (option string) * dict (option string) (option Z) :=
  let d0 := dict_of_items
              (map (fun p => (Player.player_id p, Player.last_name p)) (home ++ away)) in
  let d1 := dict_setitem d0 ball_id_ (Some BALL) in
  let d2 := dict_setitem d1 referee_id_ (Some REFEREE) in
  (d2, dict_invert d2).

Definition __init__ (mj : MatchJson.t) (sj : list MomentJson.t) : result t :=
  let home := _get_team_info (MatchJson.home_team mj) in
  let away := _get_team_info (MatchJson.away_team mj) in
  let t2i := dict_of_items [(home.1, home.2); (away.1, away.2)] in
  let i2t := dict_invert t2i in
  let pitch := _get_pitch_size mj in
  let ball_id_ := _get_trackable_object (MatchJson.ball mj) in
  referee_id_ ← _get_referee (MatchJson.referees mj);
  ps ← _get_all_players mj home.2 away.2;
  let lookups := _build_lookups ps.1.1 ps.1.2 ball_id_ referee_id_ in
  ms ← comprehension Moment.__init__ sj;
  Ok {| match_json := mj;
        structured_json := sj;
        home_team_name := home.1;
        home_team_id := home.2;
        away_team_name := away.1;
        away_team_id := away.2;
        team_to_id := t2i;
        id_to_team := i2t;
        pitch_size := pitch;
        ball_id := ball_id_;
        referee_id := referee_id_;
        home_team_players := ps.1.1;
        away_team_players := ps.1.2;
        all_players := ps.2;
        id_to_name := lookups.1;
        name_to_id := lookups.2;
        moments := ms |}.
End Match.

(** ** Truthiness and string formatting *)

(** [if v] for an integer-or-[None] value: [None] and [0] are falsy. *)
Definition truthy (v : option Z) : bool :=
  match v with
  | Some i => negb (i =? 0)
  | None => false
  end.

(** [f"{v}"] for a string-or-[None] value. *)
Definition format_name (v : option string) : string :=
  match v with
  | Some s => s
  | None => "None"
  end.

(** ** StringOfPossession *)

Module StringOfPossession.
Record t : Type := {
  team : option string;
  moments : list Moment.t;
  n2i : dict (option string) (option Z);
  i2n : dict (option Z) (option string)
}.

(** [string_of_possession[0]] is an [IndexError] on the empty list. *)
Definition __init__ (string_of_possession : list Moment.t)
    (n2i_ : dict (option string) (option Z)) (i2n_ : dict (option Z) (option string))
  : result t :=
  match string_of_possession with
  | [] => Raise IndexError
  | m0 :: _ =>
      Ok {| team := Moment.possession_group m0;
            moments := string_of_possession;
            n2i := n2i_;
            i2n := i2n_ |}
  end.

(** The values an instance attribute can hold. *)
Inductive attribute : Type :=
  | AttrGroup (g : option string)
  | AttrMoments (ms : list Moment.t)
  | AttrN2I (d : dict (option string) (option Z))
  | AttrI2N (d : dict (option Z) (option string)).

(** [self.<name>]: the instance has the four attributes [__init__] sets
    and the class defines no other data attribute. *)
Definition getattr (self : t) (name : string) : result attribute :=
  if String.eqb name "team" then Ok (AttrGroup (team self))
  else if String.eqb name "moments" then Ok (AttrMoments (moments self))
  else if String.eqb name "n2i" then Ok (AttrN2I (n2i self))
  else if String.eqb name "i2n" then Ok (AttrI2N (i2n self))
  else Raise AttributeError.

(** The body of the [for] loop of [__repr__], over the frames still to
    walk, with the loop variables [previous_possession] and [string]. *)
Fixpoint __repr__loop (i2n_ : dict (option Z) (option string)) (ms : list Moment.t)
    (previous_possession : option Z) (str : string) : result string :=
  match ms with
  | [] => Ok str
  | m :: ms' =>
      let pid := Moment.possession_id m in
      if truthy pid && bool_decide (previous_possession ≠ pid)
      then name ← dict_getitem i2n_ pid;
           __repr__loop i2n_ ms' pid (str +:+ " -> " +:+ format_name name)
      else __repr__loop i2n_ ms' previous_possession str
  end.

(** [__repr__] iterates over [self.string_of_possession]. *)
Definition __repr__ (self : t) : result string :=
  a ← getattr self "string_of_possession";
  match a with
  | AttrMoments ms => __repr__loop (i2n self) ms None "<s>"
  | _ => Raise TypeError
  end.
End StringOfPossession.

(** ** Sorting, counting and rounding *)

(** Python's [sorted] is stable.  [insert_stable le a l] puts [a], which
    stood before every element of [l] in the input, before the first [b]
    with [le a b]. *)
Fixpoint insert_stable {A} (le : A → A → bool) (a : A) (l : list A) : list A :=
  match l with
  | [] => [a]
  | b :: l' => if le a b then a :: b :: l' else b :: insert_stable le a l'
  end.

Definition stable_sort {A} (le : A → A → bool) (l : list A) : list A :=
  foldr (insert_stable le) [] l.

(** [sorted(l, key=key)] for keys that are integers or [None].  A list of
    fewer than two elements is returned without any comparison; otherwise
    every key takes part in a comparison, and [<] on [None] is a
    [TypeError]. *)
Definition sorted_by_key {A} (key : A → option Z) (l : list A) : result (list A) :=
  match l with
  | [] | [_] => Ok l
  | _ =>
      keyed ← comprehension
                (fun a => match key a with
                          | Some k => Ok (k, a)
                          | None => Raise TypeError
                          end) l;
      Ok (stable_sort (fun a b => a.1 <=? b.1) keyed).*2
  end.

(** [Counter(l)]: one entry per distinct element, in the order of first
    occurrence. *)
Definition Counter_of_list {K} `{EqDecision K} (l : list K) : dict K Z :=
  foldl (fun c k => dict_setitem c k (default 0 (dict_get c k) + 1)) [] l.

(** [c.most_common()]: the items by decreasing count, equal counts in
    insertion order. *)
Definition most_common {K} (c : dict K Z) : list (K * Z) :=
  stable_sort (fun a b => b.2 <=? a.2) c.

(** [sum(c.values())] *)
Definition sum_values {K} (c : dict K Z) : Z :=
  foldl Z.add 0 (dict_values c).

(** Python's [float]: binary64. *)
Definition prec : Z := 53.
Definition emax : Z := 1024.

(** An integer as the operand of a float operation, with its exact value. *)
Definition float_of_int (z : Z) : spec_float :=
  match z with
  | Z0 => S754_zero false
  | Zpos p => S754_finite false p 0
  | Zneg p => S754_finite true p 0
  end.

(** [a / b] on integers: the binary64 number nearest to the exact
    quotient, ties to even, and [OverflowError] when that number is out of
    range.  [SFdiv] rounds the exact quotient of its operands once. *)
Definition true_div (a b : Z) : result spec_float :=
  if decide (b = 0) then Raise ZeroDivisionError
  else match SFdiv prec emax (float_of_int a) (float_of_int b) with
       | S754_infinity _ => Raise OverflowError
       | q => Ok q
       end.

(** [np.rint] on a binary64 number: the nearest integer, halves to the even
    neighbour, with the sign of the argument. *)
Definition rint (x : spec_float) : spec_float :=
  match x with
  | S754_finite s m e =>
      if 0 <=? e then x
      else let q := Z.pos m / 2 ^ (- e) in
           let r := Z.pos m mod 2 ^ (- e) in
           let n := match 2 * r ?= 2 ^ (- e) with
                    | Lt => q
                    | Gt => q + 1
                    | Eq => if Z.even q then q else q + 1
                    end in
           match n with
           | Z0 => S754_zero s
           | Zpos p => binary_round prec emax s p 0
           | Zneg _ => S754_nan
           end
  | _ => x
  end.

(** [np.round(x, decimals)] on a float: with [f] the float [10 ** |decimals|],
    which is exact up to 22 decimals, numpy computes [rint(x * f) / f] for
    positive [decimals], [rint(x)] for zero and [rint(x / f) * f] for
    negative ones, each operation in binary64. *)
Definition np_round (x : spec_float) (decimals : Z) : spec_float :=
  let f := binary_normalize prec emax (10 ^ Z.abs decimals) 0 false in
  if decimals =? 0 then rint x
  else if 0 <? decimals then SFdiv prec emax (rint (SFmul prec emax x f)) f
  else SFmul prec emax (rint (SFdiv prec emax x f)) f.

(** ** Analysis *)

Module Analysis.
Record t : Type := {
  match_data : MatchJson.t;
  structured_data : list MomentJson.t;
  match_ : Match.t
}.

(** The two documents are read by [read_in_json]; the constructor is
    modelled from the loaded documents on. *)
Definition __init__ (md : MatchJson.t) (sd : list MomentJson.t) : result t :=
  m ← Match.__init__ md sd;
  Ok {| match_data := md; structured_data := sd; match_ := m |}.

(** The counting loop of [get_team_possession_stats], over the frames
    still to visit and the two counters. *)
Fixpoint team_counts (ms : list Moment.t) (home_count away_count : Z) : Z * Z :=
  match ms with
  | [] => (home_count, away_count)
  | m :: ms' =>
      if decide (Moment.possession_group m = Some "home team")
      then team_counts ms' (home_count + 1) away_count
      else if decide (Moment.possession_group m = Some "away team")
      then team_counts ms' home_count (away_count + 1)
      else team_counts ms' home_count away_count
  end.

Definition get_team_possession_stats (self : t)
  : result (dict (option string) spec_float) :=
  let counts := team_counts (Match.moments (match_ self)) 0 0 in
  let total_count := counts.1 + counts.2 in
  h ← true_div counts.1 total_count;
  let home_percentage := np_round h 3 in
  a ← true_div counts.2 total_count;
  let away_percentage := np_round a 3 in
  Ok (dict_of_items [(Match.home_team_name (match_ self), home_percentage);
                     (Match.away_team_name (match_ self), away_percentage)]).

(** The first argument of [Counter] in [get_player_possession_stats]:
    the display names of the holders of the frames that pass the
    [if m.possession_id] test. *)
Definition possessor_names (self : t) : list (option string) :=
  map (fun m => default None (dict_get (Match.id_to_name (match_ self))
                                       (Moment.possession_id m)))
      (filter (fun m => truthy (Moment.possession_id m) = true)
              (Match.moments (match_ self))).

Definition get_player_possession_stats (self : t)
  : result (dict (option string) spec_float) :=
  let raw_counts := Counter_of_list (possessor_names self) in
  items ← comprehension
            (fun nc : option string * Z =>
               q ← true_div (default 0 (dict_get raw_counts nc.1)) (sum_values raw_counts);
               Ok (nc.1, np_round q 2))
            (most_common raw_counts);
  Ok (dict_of_items items).

(** The state of the scan of [_build_possession_strings].  The buffer
    that [possession_strings.append] stores is never written again:
    the next statement binds [possession_buffer] to a fresh list. *)
Record scan : Type := {
  possession_strings : list (list Moment.t);
  previous_possession : option string;
  possession_buffer : list Moment.t
}.

Definition scan_step (st : scan) (m : Moment.t) : scan :=
  if decide (previous_possession st ≠ Moment.possession_group m)
  then {| possession_strings := possession_strings st ++ [possession_buffer st];
          possession_buffer := [m];
          previous_possession := Moment.possession_group m |}
  else {| possession_strings := possession_strings st;
          possession_buffer := possession_buffer st ++ [m];
          previous_possession := Moment.possession_group m |}.

Definition scan_init : scan :=
  {| possession_strings := []; previous_possession := None; possession_buffer := [] |}.

(** [set([pp.possession_group for pp in p]) != {None}] *)
Definition not_none_string (p : list Moment.t) : bool :=
  bool_decide ((list_to_set (map Moment.possession_group p) : gset (option string))
               ≠ {[ None ]}).

Definition _build_possession_strings (list_of_moments : list Moment.t)
  : result (list (list Moment.t)) :=
  sorted ← sorted_by_key Moment.frame list_of_moments;
  let st := foldl scan_step scan_init sorted in
  Ok (filter (fun p => not_none_string p = true) (possession_strings st)).

Definition get_possession_strings (self : t) : result (list StringOfPossession.t) :=
  possession_strings_raw ← _build_possession_strings (Match.moments (match_ self));
  comprehension
    (fun sop => StringOfPossession.__init__ sop (Match.name_to_id (match_ self))
                                            (Match.id_to_name (match_ self)))
    possession_strings_raw.
End Analysis.

(** ** Coordinate and the location table *)

Module Coordinate.
Record t : Type := { x : option pynum; y : option pynum; z : option pynum }.

Definition __init__ (x_ y_ z_ : option pynum) : t := {| x := x_; y := y_; z := z_ |}.
End Coordinate.

(** The inner dict of [location_dict] in [Analysis.build_location_dataframe]:
    the coordinates of the locations of one frame by object identifier. *)
Definition location_row (m : Moment.t) : dict (option Z) Coordinate.t :=
  dict_of_items
    (map (fun location =>
            (Location.location_id location,
             Coordinate.__init__ (Location.x location) (Location.y location)
                                 (Location.z location)))
         (Moment.locations m)).

(** [location_dict], the dict that [Analysis.build_location_dataframe]
    hands to [pd.DataFrame.from_dict]: one row per [(frame, time)] pair. *)
Definition location_dict (self : Analysis.t)
  : dict (option Z * option string) (dict (option Z) Coordinate.t) :=
  dict_of_items
    (map (fun m => ((Moment.frame m, Moment.time m), location_row m))
         (Match.moments (Analysis.match_ self))).

(** ** Vocabulary of the specification and example documents *)

(** A frame record with an empty [data] list in the first period. *)
Definition frame_json (n : Z) (pid : option Z) (g : option string) : MomentJson.t :=
  {| MomentJson.frame := Some n;
     MomentJson.time := None;
     MomentJson.period := Some 1;
     MomentJson.data := Some [];
     MomentJson.possession :=
       Some {| PossessionJson.trackable_object := pid; PossessionJson.group := g |} |}.

(** The frame [Moment.__init__] builds from [frame_json n pid g]. *)
Definition frame_of (n : Z) (pid : option Z) (g : option string) : Moment.t :=
  {| Moment.moment_json := frame_json n pid g;
     Moment.frame := Some n;
     Moment.time := None;
     Moment.half := Some 1;
     Moment.locations := [];
     Moment.possession_id := pid;
     Moment.possession_group := g |}.

(** Frames 1 to 7 with the groups [[a, a, null, b, b, b, null]]. *)
Definition example_frames (a b : string) : list Moment.t :=
  [ frame_of 1 (Some 10) (Some a); frame_of 2 (Some 11) (Some a);
    frame_of 3 None None;
    frame_of 4 (Some 20) (Some b); frame_of 5 (Some 20) (Some b);
    frame_of 6 (Some 21) (Some b);
    frame_of 7 None None ].

(** The number of frames held by a list of segments. *)
Definition total_frames (segs : list (list Moment.t)) : nat :=
  length (concat segs).

Definition null_group (m : Moment.t) : Prop := Moment.possession_group m = None.

(** A frame the team possession counters recognise. *)
Definition recognized (m : Moment.t) : Prop :=
  Moment.possession_group m = Some "home team"
  ∨ Moment.possession_group m = Some "away team".

(** A frame whose holder identifier is neither null nor zero. *)
Definition holder_counted (m : Moment.t) : Prop :=
  match Moment.possession_id m with
  | Some i => i ≠ 0
  | None => False
  end.

#[global] Instance holder_counted_dec (m : Moment.t) : Decision (holder_counted m).
Proof. unfold holder_counted. destruct (Moment.possession_id m); apply _. Defined.

(** The display name the identifier lookup gives for the holder of a frame,
    null when the lookup does not know the identifier. *)
Definition holder_name (self : Analysis.t) (m : Moment.t) : option string :=
  default None (dict_get (Match.id_to_name (Analysis.match_ self))
                         (Moment.possession_id m)).

(** The same analysis over another frame sequence. *)
Definition with_moments (self : Analysis.t) (ms : list Moment.t) : Analysis.t :=
  let m := Analysis.match_ self in
  {| Analysis.match_data := Analysis.match_data self;
     Analysis.structured_data := Analysis.structured_data self;
     Analysis.match_ :=
       {| Match.match_json := Match.match_json m;
          Match.structured_json := Match.structured_json m;
          Match.home_team_name := Match.home_team_name m;
          Match.home_team_id := Match.home_team_id m;
          Match.away_team_name := Match.away_team_name m;
          Match.away_team_id := Match.away_team_id m;
          Match.team_to_id := Match.team_to_id m;
          Match.id_to_team := Match.id_to_team m;
          Match.pitch_size := Match.pitch_size m;
          Match.ball_id := Match.ball_id m;
          Match.referee_id := Match.referee_id m;
          Match.home_team_players := Match.home_team_players m;
          Match.away_team_players := Match.away_team_players m;
          Match.all_players := Match.all_players m;
          Match.id_to_name := Match.id_to_name m;
          Match.name_to_id := Match.name_to_id m;
          Match.moments := ms |} |}.

(** The two lookups undo each other on every key of either. *)
Definition mutual_inverses (i2n : dict (option Z) (option string))
    (n2i : dict (option string) (option Z)) : Prop :=
  (∀ i n, dict_get i2n i = Some n → dict_get n2i n = Some i)
  ∧ (∀ n i, dict_get n2i n = Some i → dict_get i2n i = Some n).

(** A player's declared team is one of the two registered teams. *)
Definition team_registered (home_id away_id : option Z) (p : PlayerJson.t) : Prop :=
  PlayerJson.team_id p = home_id ∨ PlayerJson.team_id p = away_id.

Definition player_entry (name : string) (pid team : Z) : PlayerJson.t :=
  {| PlayerJson.last_name := Some name;
     PlayerJson.trackable_object := Some pid;
     PlayerJson.team_id := Some team;
     PlayerJson.number := None;
     PlayerJson.player_role := None |}.

(** A metadata document with teams 1 and 2, ball 55 and the given
    referees list and roster. *)
Definition metadata (refs : option (list TrackableJson.t)) (roster : list PlayerJson.t)
  : MatchJson.t :=
  {| MatchJson.home_team := Some {| TeamJson.acronym := Some "HOM"; TeamJson.id := Some 1 |};
     MatchJson.away_team := Some {| TeamJson.acronym := Some "AWY"; TeamJson.id := Some 2 |};
     MatchJson.pitch_length := Some (PyInt 105);
     MatchJson.pitch_width := Some (PyInt 68);
     MatchJson.ball := Some {| TrackableJson.trackable_object := Some 55 |};
     MatchJson.referees := refs;
     MatchJson.players := Some roster |}.

Definition one_referee : option (list TrackableJson.t) :=
  Some [ {| TrackableJson.trackable_object := Some 99 |} ].

Definition valid_roster : list PlayerJson.t :=
  [ player_entry "Keane" 10 1; player_entry "Vieira" 20 2; player_entry "Scholes" 11 1 ].

(** A roster with a player of team 3, which is not registered. *)
Definition stray_roster : list PlayerJson.t :=
  [ player_entry "Keane" 10 1; player_entry "Figo" 30 3 ].

(** Two players of different identifiers who share a last name. *)
Definition namesake_roster : list PlayerJson.t :=
  [ player_entry "Silva" 10 1; player_entry "Silva" 20 2 ].

(** All frames of a segment carry the same group. *)
Definition one_group (p : list Moment.t) : Prop :=
  ∃ g, Forall (fun m => Moment.possession_group m = g) p.

(** The frame index of the first frame is at most that of the second. *)
Definition frame_le (m1 m2 : Moment.t) : Prop :=
  ∃ a b, Moment.frame m1 = Some a ∧ Moment.frame m2 = Some b ∧ a ≤ b.

#[global] Instance recognized_dec (m : Moment.t) : Decision (recognized m).
Proof. unfold recognized. apply _. Defined.

(** The number of frames that carry the given possession label. *)
Definition frames_of_group (g : string) (ms : list Moment.t) : nat :=
  length (filter (fun m => Moment.possession_group m = Some g) ms).

(** The number of counted frames of [ms] whose holder resolves to [n]. *)
Definition frames_held (self : Analysis.t) (n : option string) (ms : list Moment.t) : nat :=
  length (filter (fun m => holder_counted m ∧ holder_name self m = n) ms).

(** [x] is [+0.0] or a positive binary64 number [m * 2^e] whose value is at
    most [n / d]. *)
Definition float_le (x : spec_float) (n d : Z) : Prop :=
  match x with
  | S754_zero false => True
  | S754_finite false m e => e ≤ 0 ∧ Z.pos m * d ≤ n * 2 ^ (- e)
  | _ => False
  end.

Definition float_leb (x : spec_float) (n d : Z) : bool :=
  match x with
  | S754_zero false => true
  | S754_finite false m e => (e <=? 0) && (Z.pos m * d <=? n * 2 ^ (- e))
  | _ => false
  end.

(** The binary64 quotient of two counts. *)
Definition quotient (k n : nat) : spec_float :=
  SFdiv prec emax (float_of_int (Z.of_nat k)) (float_of_int (Z.of_nat n)).

(** The share of the counted frames whose holder resolves to [n], rounded
    to two decimals. *)
Definition player_share (self : Analysis.t) (n : option string) : spec_float :=
  let ms := Match.moments (Analysis.match_ self) in
  np_round (quotient (frames_held self n ms) (length (filter holder_counted ms))) 2.

(** [n] frame records with the given holder and possession label. *)
Definition labelled_frames (n : nat) (pid : Z) (g : string) : list MomentJson.t :=
  replicate n (frame_json 1 (Some pid) (Some g)).

(** A frame record of period 2 with a location that has no y: the flip has
    nothing to negate. *)
Definition unflippable (mj : MomentJson.t) : Prop :=
  MomentJson.period mj = Some 2
  ∧ Exists (fun l => LocationJson.y l = None) (default [] (MomentJson.data mj)).

(** A frame record that [Moment.__init__] accepts. *)
Definition frame_loads (mj : MomentJson.t) : Prop :=
  ¬ unflippable mj ∧ MomentJson.possession mj ≠ None.

(** A frame record of the given period with one location of object 10. *)
Definition located_frame_json (n period : Z) (y_ : pynum) : MomentJson.t :=
  {| MomentJson.frame := Some n;
     MomentJson.time := None;
     MomentJson.period := Some period;
     MomentJson.data :=
       Some [ {| LocationJson.x := Some (PyInt 1); LocationJson.y := Some y_;
                 LocationJson.z := None; LocationJson.trackable_object := Some 10;
                 LocationJson.track_id := None |} ];
     MomentJson.possession :=
       Some {| PossessionJson.trackable_object := None; PossessionJson.group := None |} |}.

(** * Properties *)

(** ** The error monad and comprehensions *)

Lemma bind_ok_inv {A B} (r : result A) (f : A → result B) (b : B) :
  r ≫= f = Ok b → ∃ a, r = Ok a ∧ f a = Ok b.
Proof. destruct r as [a|e]; simpl; [eauto | discriminate]. Qed.

Lemma bind_raise_inv {A B} (r : result A) (f : A → result B) (e : exn) :
  r ≫= f = Raise e → r = Raise e ∨ ∃ a, r = Ok a ∧ f a = Raise e.
Proof. destruct r as [a|e']; simpl; [eauto | intros [= ->]; auto]. Qed.

Lemma comprehension_length {A B} (f : A → result B) (l : list A) (bs : list B) :
  comprehension f l = Ok bs → length bs = length l.
Proof.
  revert bs; induction l as [|a l IH]; simpl; intros bs H.
  - by inversion H.
  - apply bind_ok_inv in H as (b & _ & H).
    apply bind_ok_inv in H as (bs' & Hbs' & H).
    inversion H; subst; simpl. f_equal. by apply IH.
Qed.

Lemma comprehension_total {A B} (f : A → B) (l : list A) :
  comprehension (fun a => Ok (f a)) l = Ok (map f l).
Proof. induction l as [|a l IH]; simpl; [done | by rewrite IH]. Qed.

Lemma comprehension_raises {A B} (f : A → result B) (l : list A) (e : exn) :
  comprehension f l = Raise e → ∃ a, a ∈ l ∧ f a = Raise e.
Proof.
  induction l as [|a l IH]; simpl; [discriminate|].
  intros H. apply bind_raise_inv in H as [H | (b & _ & H)].
  - exists a. split; [left | done].
  - apply bind_raise_inv in H as [H | (bs & _ & H)]; [|discriminate].
    destruct (IH H) as (a' & Hin & Ha'). exists a'. split; [by right | done].
Qed.

(** ** Location: the period-2 flip *)

Lemma pynum_neg_involutive (n : pynum) : pynum_neg (pynum_neg n) = n.
Proof. destruct n as [i|f]; simpl; [by rewrite Z.opp_involutive|]. by destruct f as [[]|[]| |[]]. Qed.

Lemma Location_init_raises (lj : LocationJson.t) (period : option Z) (e : exn) :
  Location.__init__ lj period = Raise e →
  e = TypeError ∧ LocationJson.y lj = None ∧ period = Some 2.
Proof.
  unfold Location.__init__, Location.period_is_2.
  destruct period as [p|]; simpl; [|discriminate].
  case_bool_decide as Hp; simpl; [|discriminate]. subst p.
  destruct (LocationJson.y lj); simpl; [discriminate|]. by intros [= <-].
Qed.

(** C8.  For a location record whose raw y is a number and every period
    value (absent included), construction succeeds; the normalized y is the
    negation of the raw y when the period is 2 and the raw y otherwise, and
    the raw y and every other field are stored as they stand in the record.
    Negation is unary minus: the opposite of an integer, the sign flip of a
    float, and undoes itself.  For a record without y the raw y is null: in
    every period but 2 the record is accepted, with a null normalized y, and
    in period 2 the flip negates [None], so the construction of the
    location raises [TypeError], and so does that of a frame that holds
    it. *)
Theorem C8_normalized_y (x_ z_ : option pynum) (obj trk : option Z) (v : pynum)
    (period : option Z) (frame_ : option Z) (time_ : option string)
    (poss : option PossessionJson.t) :
  let lj (y_ : option pynum) :=
    {| LocationJson.x := x_; LocationJson.y := y_; LocationJson.z := z_;
       LocationJson.trackable_object := obj; LocationJson.track_id := trk |} in
  let built (y_ ny : option pynum) :=
    {| Location.location_json := lj y_;
       Location.x := x_;
       Location.y := y_;
       Location.normalized_y := ny;
       Location.z := z_;
       Location.location_id := obj;
       Location.track_id := trk |} in
  Location.__init__ (lj (Some v)) period
  = Ok (built (Some v) (Some (if decide (period = Some 2) then pynum_neg v else v)))
  ∧ Location.__init__ (lj None) period
    = (if decide (period = Some 2) then Raise TypeError else Ok (built None None))
  ∧ Location.__init__ (lj None) (Some 2) = Raise TypeError
  ∧ Moment.__init__ {| MomentJson.frame := frame_; MomentJson.time := time_;
                       MomentJson.period := Some 2; MomentJson.data := Some [lj None];
                       MomentJson.possession := poss |} = Raise TypeError
  ∧ (∀ i, pynum_neg (PyInt i) = PyInt (- i))
  ∧ (∀ f, pynum_neg (PyFloat f) = PyFloat (SFopp f))
  ∧ pynum_neg (pynum_neg v) = v.
Proof.
  cbn zeta. split; [|split; [|split; [done|split; [done|]]]].
  - unfold Location.__init__, Location.period_is_2; simpl.
    destruct period as [p|]; simpl; [|done].
    case_bool_decide as Hp; case_decide as Hq; simplify_eq; done.
  - unfold Location.__init__, Location.period_is_2; simpl.
    destruct period as [p|]; simpl; [|done].
    case_bool_decide as Hp; case_decide as Hq; simplify_eq; done.
  - by auto using pynum_neg_involutive.
Qed.

(** ** Moment: a frame record without a possession field *)

(** C4.  Whatever the other fields hold, a frame record without the
    possession field never yields a frame: the constructor raises, with
    [AttributeError] from [None.get] unless a location raised first, and
    with [AttributeError] whenever the record has no locations. *)
Theorem C4_absent_possession_raises (frame_ : option Z) (time_ : option string)
    (period_ : option Z) (data_ : option (list LocationJson.t)) :
  let mj := {| MomentJson.frame := frame_; MomentJson.time := time_;
               MomentJson.period := period_; MomentJson.data := data_;
               MomentJson.possession := None |} in
  (Moment.__init__ mj = Raise AttributeError ∨ Moment.__init__ mj = Raise TypeError)
  ∧ Moment.__init__ {| MomentJson.frame := frame_; MomentJson.time := time_;
                       MomentJson.period := period_; MomentJson.data := None;
                       MomentJson.possession := None |} = Raise AttributeError
  ∧ Moment.__init__ {| MomentJson.frame := frame_; MomentJson.time := time_;
                       MomentJson.period := period_; MomentJson.data := Some [];
                       MomentJson.possession := None |} = Raise AttributeError.
Proof.
  simpl. split; [|by repeat split].
  unfold Moment.__init__; simpl.
  destruct (comprehension _ _) as [locs|e] eqn:Hc; simpl; [by left|].
  apply comprehension_raises in Hc as (l & _ & Hl).
  apply Location_init_raises in Hl as (-> & _). by right.
Qed.

Lemma Moment_locations_normalized (mj : MomentJson.t) (m : Moment.t) :
  Moment.__init__ mj = Ok m →
  Moment.half m = MomentJson.period mj
  ∧ Forall (fun loc =>
              Location.normalized_y loc
              = if decide (Moment.half m = Some 2)
                then pynum_neg <$> Location.y loc else Location.y loc)
           (Moment.locations m).
Proof.
  unfold Moment.__init__. intros H.
  apply bind_ok_inv in H as (locs & Hlocs & H).
  apply bind_ok_inv in H as (poss & _ & H). inversion H; subst; clear H; simpl.
  split; [done|].
  revert locs Hlocs. induction (default [] (MomentJson.data mj)) as [|lj l IH];
    simpl; intros locs Hlocs.
  - inversion Hlocs. constructor.
  - apply bind_ok_inv in Hlocs as (loc & Hloc & Hlocs).
    apply bind_ok_inv in Hlocs as (locs' & Hlocs' & Hlocs).
    inversion Hlocs; subst; clear Hlocs. constructor; [|by apply IH].
    unfold Location.__init__, Location.period_is_2 in Hloc.
    destruct (MomentJson.period mj) as [p|]; simpl in Hloc.
    + case_bool_decide; case_decide; simplify_eq; simpl in Hloc.
      * destruct (LocationJson.y lj); simpl in Hloc; by inversion Hloc.
      * by inversion Hloc.
    + by inversion Hloc.
Qed.

(** ** Match: the referee lookup *)

(** C9.  With the referees list absent, and with it present and empty,
    the referee lookup indexes an empty list: [_get_referee] raises
    [IndexError] and so does the construction of the Match, whatever the
    rest of the two documents holds.  The ball lookup beside it, on an
    absent [ball] entry, returns null. *)
Theorem C9_no_referee_raises (home away : option TeamJson.t) (len wid : option pynum)
    (ball_ : option TrackableJson.t) (roster : option (list PlayerJson.t))
    (sj : list MomentJson.t) :
  Match._get_referee None = Raise IndexError
  ∧ Match._get_referee (Some []) = Raise IndexError
  ∧ Match.__init__ {| MatchJson.home_team := home; MatchJson.away_team := away;
                      MatchJson.pitch_length := len; MatchJson.pitch_width := wid;
                      MatchJson.ball := ball_; MatchJson.referees := None;
                      MatchJson.players := roster |} sj = Raise IndexError
  ∧ Match.__init__ {| MatchJson.home_team := home; MatchJson.away_team := away;
                      MatchJson.pitch_length := len; MatchJson.pitch_width := wid;
                      MatchJson.ball := ball_; MatchJson.referees := Some [];
                      MatchJson.players := roster |} sj = Raise IndexError
  ∧ Match._get_trackable_object None = None.
Proof. by repeat split. Qed.

(** ** Match: the roster *)

Lemma get_all_players_loop_spec (h a : option Z) (ps : list PlayerJson.t)
    (home away : list Player.t) :
  Match._get_all_players_loop h a ps home away
  = if decide (Forall (team_registered h a) ps)
    then Ok (home ++ map Player.__init__ (filter (fun p => PlayerJson.team_id p = h) ps),
             away ++ map Player.__init__ (filter (fun p => ¬ PlayerJson.team_id p = h) ps))
    else Raise IdMismatchException.
Proof.
  revert home away.
  induction ps as [|p ps IH]; intros home away; cbn [Match._get_all_players_loop].
  - rewrite decide_True by constructor. by rewrite !filter_nil, !app_nil_r.
  - unfold Match._get_player; cbn [Player.__init__ Player.team_id].
    destruct (decide (PlayerJson.team_id p = h)) as [Hh|Hh].
    + rewrite IH, filter_cons_True by done. rewrite filter_cons_False by tauto.
      destruct (decide (Forall _ ps)) as [Hall|Hall].
      * rewrite decide_True by (constructor; [by left | done]).
        cbn [map]. by rewrite <- !app_assoc.
      * rewrite decide_False; [done|]. intros Hc. by inversion Hc.
    + destruct (decide (PlayerJson.team_id p = a)) as [Ha|Ha].
      * rewrite IH, filter_cons_False by done. rewrite filter_cons_True by done.
        destruct (decide (Forall _ ps)) as [Hall|Hall].
        -- rewrite decide_True by (constructor; [by right | done]).
           cbn [map]. by rewrite <- !app_assoc.
        -- rewrite decide_False; [done|]. intros Hc. by inversion Hc.
      * rewrite decide_False; [done|]. intros Hc. inversion Hc as [|?? [?|?]]; done.
Qed.

Lemma get_all_players_spec (mj : MatchJson.t) (h a : option Z) :
  let roster := default [] (MatchJson.players mj) in
  Match._get_all_players mj h a
  = if decide (Forall (team_registered h a) roster)
    then let home := map Player.__init__ (filter (fun p => PlayerJson.team_id p = h) roster) in
         let away := map Player.__init__ (filter (fun p => ¬ PlayerJson.team_id p = h) roster) in
         Ok (home, away, home ++ away)
    else Raise IdMismatchException.
Proof.
  simpl. unfold Match._get_all_players. rewrite get_all_players_loop_spec.
  by destruct (decide _).
Qed.

(** Once the referee lookup has returned, a stray player is the only thing
    that can stop the registry, and it stops it with [IdMismatchException]. *)
Lemma Match_init_after_referee (mj : MatchJson.t) (sj : list MomentJson.t) (r : option Z) :
  Match._get_referee (MatchJson.referees mj) = Ok r →
  let h := (Match._get_team_info (MatchJson.home_team mj)).2 in
  let a := (Match._get_team_info (MatchJson.away_team mj)).2 in
  ¬ Forall (team_registered h a) (default [] (MatchJson.players mj)) →
  Match.__init__ mj sj = Raise IdMismatchException.
Proof.
  intros Hr h a Hbad. unfold Match.__init__. rewrite Hr; simpl.
  rewrite get_all_players_spec. fold h a. by rewrite decide_False.
Qed.

Lemma Match_init_ok_inv (mj : MatchJson.t) (sj : list MomentJson.t) (M : Match.t) :
  Match.__init__ mj sj = Ok M →
  let h := (Match._get_team_info (MatchJson.home_team mj)).2 in
  let a := (Match._get_team_info (MatchJson.away_team mj)).2 in
  let roster := default [] (MatchJson.players mj) in
  Forall (team_registered h a) roster
  ∧ Match.home_team_id M = h ∧ Match.away_team_id M = a
  ∧ Match.home_team_players M
    = map Player.__init__ (filter (fun p => PlayerJson.team_id p = h) roster)
  ∧ Match.away_team_players M
    = map Player.__init__ (filter (fun p => ¬ PlayerJson.team_id p = h) roster)
  ∧ Match.all_players M = Match.home_team_players M ++ Match.away_team_players M
  ∧ Match._get_referee (MatchJson.referees mj) = Ok (Match.referee_id M)
  ∧ Match.ball_id M = Match._get_trackable_object (MatchJson.ball mj)
  ∧ (Match.id_to_name M, Match.name_to_id M)
    = Match._build_lookups (Match.home_team_players M) (Match.away_team_players M)
                           (Match.ball_id M) (Match.referee_id M)
  ∧ comprehension Moment.__init__ sj = Ok (Match.moments M).
Proof.
  intros H h a roster. unfold Match.__init__ in H.
  apply bind_ok_inv in H as (r & Hr & H).
  apply bind_ok_inv in H as (ps & Hps & H).
  apply bind_ok_inv in H as (ms & Hms & H).
  rewrite get_all_players_spec in Hps. fold h a roster in Hps.
  destruct (decide (Forall _ roster)) as [Hall|]; [|discriminate].
  simpl in Hps. inversion Hps; subst ps; clear Hps.
  inversion H; subst M; clear H; simpl.
  repeat split; try done.
Qed.

Lemma Match_init_stray_player_aborts (mj : MatchJson.t) (sj : list MomentJson.t) :
  let h := (Match._get_team_info (MatchJson.home_team mj)).2 in
  let a := (Match._get_team_info (MatchJson.away_team mj)).2 in
  ¬ Forall (team_registered h a) (default [] (MatchJson.players mj)) →
  is_ok (Match.__init__ mj sj) = false.
Proof.
  intros h a Hbad.
  destruct (Match.__init__ mj sj) as [M|e] eqn:HM; [|done].
  by apply Match_init_ok_inv in HM as (Hall & _).
Qed.

(** C6.  The roster step does what the claim says, on every metadata
    document: [_get_all_players] places the players that declare the home
    id in the home list and the others, which declare the away id, in the
    away list, and raises [IdMismatchException] when a player declares
    neither.  The construction reaches the roster step only after the
    referee lookup.  For the document with teams 1 and 2, a player of team
    3 and no referees list, the roster step raises [IdMismatchException],
    but [Match.__init__] has raised [IndexError] before it runs; with one
    referee in the list the same roster makes [Match.__init__] raise
    [IdMismatchException]. *)
Theorem C6_roster_validation (mj : MatchJson.t) (sj : list MomentJson.t) :
  let h := (Match._get_team_info (MatchJson.home_team mj)).2 in
  let a := (Match._get_team_info (MatchJson.away_team mj)).2 in
  let roster := default [] (MatchJson.players mj) in
  Match._get_all_players mj h a
  = (if decide (Forall (team_registered h a) roster)
     then let home := map Player.__init__
                          (filter (fun p => PlayerJson.team_id p = h) roster) in
          let away := map Player.__init__
                          (filter (fun p => ¬ PlayerJson.team_id p = h) roster) in
          Ok (home, away, home ++ away)
     else Raise IdMismatchException)
  ∧ ¬ Forall (team_registered (Some 1) (Some 2)) stray_roster
  ∧ Match._get_all_players (metadata None stray_roster) (Some 1) (Some 2)
    = Raise IdMismatchException
  ∧ Match.__init__ (metadata None stray_roster) sj = Raise IndexError
  ∧ Match.__init__ (metadata one_referee stray_roster) sj = Raise IdMismatchException.
Proof.
  intros h a roster. split; [apply get_all_players_spec|].
  split; [|by repeat split].
  intros H. inversion H as [|?? _ H']. inversion H' as [|?? [Hx|Hx] _]; discriminate Hx.
Qed.

(** ** StringOfPossession: the transition trace *)

(** C5.  Rendering raises [AttributeError] for every PossessionString:
    [__repr__] reads the attribute [string_of_possession], and the
    constructor stores the frames under [moments]. *)
Theorem C5_repr_raises (self : StringOfPossession.t) :
  StringOfPossession.__repr__ self = Raise AttributeError
  ∧ StringOfPossession.getattr self "moments"
    = Ok (StringOfPossession.AttrMoments (StringOfPossession.moments self)).
Proof. by split. Qed.

(** The loop itself, run on the frames, gives the trace the claim
    describes. *)
Example repr_loop_trace :
  StringOfPossession.__repr__loop
    [(Some 10, Some "Keane"); (Some 20, Some "Vieira")]
    [frame_of 1 (Some 10) (Some "home team"); frame_of 2 None (Some "home team");
     frame_of 3 (Some 10) (Some "home team"); frame_of 4 (Some 20) (Some "home team")]
    None "<s>"
  = Ok "<s> -> Keane -> Vieira".
Proof. reflexivity. Qed.

(** ** Team possession share *)

Lemma team_counts_spec (ms : list Moment.t) (h a : Z) :
  Analysis.team_counts ms h a
  = (h + Z.of_nat (length (filter (fun m => Moment.possession_group m = Some "home team") ms)),
     a + Z.of_nat (length (filter (fun m => Moment.possession_group m = Some "away team") ms))).
Proof.
  revert h a. induction ms as [|m ms IH]; intros h a; cbn [Analysis.team_counts].
  - rewrite !filter_nil. simpl. f_equal; lia.
  - destruct (decide (Moment.possession_group m = Some "home team")) as [Hh|Hh].
    + rewrite IH, filter_cons_True by done.
      rewrite filter_cons_False by (rewrite Hh; discriminate).
      simpl length. f_equal; lia.
    + rewrite filter_cons_False by done.
      destruct (decide (Moment.possession_group m = Some "away team")) as [Ha|Ha].
      * rewrite IH, filter_cons_True by done. simpl length. f_equal; lia.
      * by rewrite IH, filter_cons_False by done.
Qed.

(** The binary64 quotient of two counts *)

Lemma digits2_pos_size (p : positive) : digits2_pos p = Pos.size p.
Proof. induction p as [p IH|p IH|]; simpl; by rewrite ?IH. Qed.

Lemma Zdigits2_bound (m k : Z) : 0 ≤ k → 0 ≤ m < 2 ^ k → Zdigits2 m ≤ k.
Proof.
  intros Hk [Hm0 Hm]. destruct m as [|p|p]; [done| |pose proof (Pos2Z.neg_is_neg p); lia]. cbn [Zdigits2].
  rewrite digits2_pos_size.
  pose proof (Pos.size_le p) as Hle.
  apply Pos2Z.pos_le_pos in Hle. rewrite Pos2Z.inj_pow in Hle.
  rewrite (Pos2Z.inj_xO p) in Hle.
  destruct (Z_le_gt_dec (Z.pos (Pos.size p)) k) as [|Hgt]; [done|exfalso].
  assert (2 ^ (k + 1) ≤ 2 ^ Z.pos (Pos.size p)) by (apply Z.pow_le_mono_r; lia).
  rewrite Z.pow_add_r, Z.pow_1_r in H by lia. lia.
Qed.

Lemma shr_1_m (mrs : shr_record) : 0 ≤ shr_m mrs → shr_m (shr_1 mrs) = shr_m mrs / 2.
Proof.
  destruct mrs as [m r s]. cbn [shr_m shr_1]. intros Hm.
  destruct m as [|[p|p|]|p]; cbn [shr_m]; try lia; try done.
  - apply (Z.div_unique _ _ _ 1); lia.
  - apply (Z.div_unique _ _ _ 0); lia.
Qed.

Lemma iter_shr_m (p : positive) (mrs : shr_record) :
  0 ≤ shr_m mrs → shr_m (SpecFloat.iter_pos shr_1 p mrs) = shr_m mrs / 2 ^ Z.pos p.
Proof.
  revert mrs. induction p as [p IH|p IH|]; intros mrs Hm; cbn [SpecFloat.iter_pos].
  - assert (Hp : 0 < 2 ^ Z.pos p) by (apply Z.pow_pos_nonneg; lia).
    assert (H1 : 0 ≤ shr_m (shr_1 mrs)) by (rewrite shr_1_m by done; apply Z.div_pos; lia).
    assert (H2 : 0 ≤ shr_m (SpecFloat.iter_pos shr_1 p (shr_1 mrs)))
      by (rewrite IH by done; apply Z.div_pos; lia).
    rewrite IH, IH, shr_1_m by done. rewrite !Z.div_div by lia.
    f_equal. replace (Z.pos p~1) with (1 + Z.pos p + Z.pos p) by lia.
    rewrite !Z.pow_add_r, Z.pow_1_r by lia. lia.
  - assert (Hp : 0 < 2 ^ Z.pos p) by (apply Z.pow_pos_nonneg; lia).
    assert (H2 : 0 ≤ shr_m (SpecFloat.iter_pos shr_1 p mrs))
      by (rewrite IH by done; apply Z.div_pos; lia).
    rewrite IH, IH by done. rewrite Z.div_div by lia.
    f_equal. replace (Z.pos p~0) with (Z.pos p + Z.pos p) by lia.
    by rewrite Z.pow_add_r by lia.
  - rewrite shr_1_m by done. by rewrite Z.pow_1_r.
Qed.

Lemma shr_record_of_loc_m (m : Z) (l : location) : shr_m (shr_record_of_loc m l) = m.
Proof. by destruct l as [|[]]. Qed.

Lemma round_nearest_even_bound (m : Z) (l : location) :
  m ≤ round_nearest_even m l ≤ m + 1.
Proof. destruct l as [|[]]; cbn [round_nearest_even]; try destruct (Z.even m); lia. Qed.

Lemma shr_fexp_spec (m e : Z) (l : location) :
  0 ≤ m →
  (shr_fexp prec emax m e l).2 = Z.max e (fexp prec emax (Zdigits2 m + e))
  ∧ shr_m (shr_fexp prec emax m e l).1
    = m / 2 ^ (Z.max e (fexp prec emax (Zdigits2 m + e)) - e).
Proof.
  intros Hm. unfold shr_fexp, shr.
  destruct (fexp prec emax (Zdigits2 m + e) - e) as [|p|p] eqn:Hn; cbn [fst snd].
  - rewrite shr_record_of_loc_m.
    replace (Z.max e (fexp prec emax (Zdigits2 m + e))) with e by lia.
    by rewrite Z.sub_diag, Z.pow_0_r, Z.div_1_r.
  - rewrite iter_shr_m by (by rewrite shr_record_of_loc_m). rewrite shr_record_of_loc_m.
    split; [lia|]. do 2 f_equal. lia.
  - rewrite shr_record_of_loc_m.
    replace (Z.max e (fexp prec emax (Zdigits2 m + e))) with e by lia.
    by rewrite Z.sub_diag, Z.pow_0_r, Z.div_1_r.
Qed.

(** The result of rounding the truncated value [m * 2^e]: the mantissa is
    shifted to the exponent [e1], rounded to a neighbour, and shifted once
    more, to [e2], if the rounding carried. *)
Lemma binary_round_aux_spec (m e : Z) (l : location) :
  0 ≤ m →
  ∃ m1 m2 e1 e2,
    e1 = Z.max e (fexp prec emax (Zdigits2 m + e))
    ∧ m / 2 ^ (e1 - e) ≤ m1 ≤ m / 2 ^ (e1 - e) + 1
    ∧ e2 = Z.max e1 (fexp prec emax (Zdigits2 m1 + e1))
    ∧ m2 = m1 / 2 ^ (e2 - e1)
    ∧ binary_round_aux prec emax false m e l
      = match m2 with
        | Z0 => S754_zero false
        | Zpos p =>
            if e2 <=? emax - prec then S754_finite false p e2 else S754_infinity false
        | Zneg _ => S754_nan
        end.
Proof.
  intros Hm. unfold binary_round_aux.
  destruct (shr_fexp_spec m e l Hm) as [He1 Hm1].
  destruct (shr_fexp prec emax m e l) as [mrs' e'] eqn:E1. cbn [fst snd] in He1, Hm1.
  rewrite <- He1 in Hm1.
  pose proof (round_nearest_even_bound (shr_m mrs') (loc_of_shr_record mrs')) as Hr.
  set (m1 := round_nearest_even (shr_m mrs') (loc_of_shr_record mrs')) in *.
  rewrite Hm1 in Hr.
  assert (Hm1pos : 0 ≤ m1).
  { assert (0 ≤ m / 2 ^ (e' - e)); [|lia]. apply Z.div_pos; [done|].
    apply Z.pow_pos_nonneg; lia. }
  destruct (shr_fexp_spec m1 e' loc_Exact Hm1pos) as [He2 Hm2].
  destruct (shr_fexp prec emax m1 e' loc_Exact) as [mrs'' e''] eqn:E2.
  cbn [fst snd] in He2, Hm2. rewrite <- He2 in Hm2.
  exists m1, (shr_m mrs''), e', e''. by repeat split; try lia.
Qed.

(** By value: the rounded mantissa [m2] at the exponent [e2] exceeds the
    truncated value by at most one unit of the exponent [e1]. *)
Lemma binary_round_aux_value (m e : Z) (l : location) :
  0 ≤ m →
  ∃ m2 e1 e2,
    e1 = Z.max e (fexp prec emax (Zdigits2 m + e))
    ∧ e1 ≤ e2
    ∧ (∀ D, e1 ≤ D → m < 2 ^ (D - e) → e2 ≤ Z.max e1 (fexp prec emax (D + 1)))
    ∧ 0 ≤ m2
    ∧ m2 * 2 ^ (e2 - e) ≤ m + 2 ^ (e1 - e)
    ∧ binary_round_aux prec emax false m e l
      = match m2 with
        | Z0 => S754_zero false
        | Zpos p =>
            if e2 <=? emax - prec then S754_finite false p e2 else S754_infinity false
        | Zneg _ => S754_nan
        end.
Proof.
  intros Hm. destruct (binary_round_aux_spec m e l Hm)
    as (m1 & m2 & e1 & e2 & He1 & Hm1 & He2 & Hm2 & Hres).
  assert (Hp1 : 0 < 2 ^ (e1 - e)) by (apply Z.pow_pos_nonneg; lia).
  assert (Hp2 : 0 < 2 ^ (e2 - e1)) by (apply Z.pow_pos_nonneg; lia).
  assert (Hq1 : 0 ≤ m / 2 ^ (e1 - e)) by (by apply Z.div_pos).
  exists m2, e1, e2. split; [done|]. split; [lia|]. split; [|split; [|split; [|done]]].
  - intros D HD HmD.
    assert (Hq : m / 2 ^ (e1 - e) < 2 ^ (D - e1)).
    { apply Z.div_lt_upper_bound; [done|]. rewrite <- Z.pow_add_r by lia.
      by replace (e1 - e + (D - e1)) with (D - e) by lia. }
    assert (Hd : Zdigits2 m1 ≤ D - e1 + 1).
    { apply Zdigits2_bound; [lia|]. split; [lia|].
      rewrite Z.pow_add_r, Z.pow_1_r by lia.
      assert (0 < 2 ^ (D - e1)) by (apply Z.pow_pos_nonneg; lia). lia. }
    rewrite He2. unfold fexp, emin, prec, emax. lia.
  - rewrite Hm2. apply Z.div_pos; lia.
  - replace (e2 - e) with ((e2 - e1) + (e1 - e)) by lia. rewrite Z.pow_add_r by lia.
    pose proof (Z.mul_div_le m1 (2 ^ (e2 - e1)) Hp2) as Ha.
    pose proof (Z.mul_div_le m (2 ^ (e1 - e)) Hp1) as Hb.
    rewrite <- Hm2 in Ha. nia.
Qed.

Lemma Zdigits2_gt (p : positive) : Z.pos p < 2 ^ Zdigits2 (Z.pos p).
Proof.
  cbn [Zdigits2]. rewrite digits2_pos_size.
  pose proof (Pos.size_gt p) as H. apply Pos2Z.pos_lt_pos in H.
  by rewrite Pos2Z.inj_pow in H.
Qed.

(** The quotient of a count by a count that is at least as large exceeds 1
    by at most [2^-52]. *)
Lemma quotient_bound (k n : nat) :
  (k ≤ n)%nat → n ≠ 0%nat → float_le (quotient k n) (2 ^ 52 + 1) (2 ^ 52).
Proof.
  intros Hkn Hn. unfold quotient.
  destruct (Z.of_nat n) as [|b|b] eqn:Hb; [lia| |lia].
  destruct (Z.of_nat k) as [|a|a] eqn:Ha; [done| |lia].
  assert (Hab : Z.pos a ≤ Z.pos b) by lia.
  cbn [float_of_int SFdiv xorb]. unfold SFdiv_core_binary.
  set (ez := Z.min (fexp prec emax (Zdigits2 (Z.pos a) + 0 - (Zdigits2 (Z.pos b) + 0))) (0 - 0)).
  assert (Hdig : Zdigits2 (Z.pos a) ≤ Zdigits2 (Z.pos b)).
  { apply Zdigits2_bound; [done|]. split; [lia|]. pose proof (Zdigits2_gt b). lia. }
  assert (Hez : ez ≤ -53) by (subst ez; unfold fexp, emin, prec, emax; lia).
  set (m' := match 0 - 0 - ez with
             | 0 => Z.pos a
             | Z.pos _ => Z.shiftl (Z.pos a) (0 - 0 - ez)
             | Z.neg _ => 0
             end).
  assert (Hm' : m' = Z.pos a * 2 ^ (- ez)).
  { subst m'. destruct (0 - 0 - ez) as [|p|p] eqn:Hs; [lia| |lia].
    rewrite Z.shiftl_mul_pow2 by lia. do 2 f_equal. lia. }
  destruct (Z.div_eucl m' (Z.pos b)) as [mz r] eqn:Hqr.
  assert (Hmz : mz = m' / Z.pos b) by (unfold Z.div; by rewrite Hqr).
  assert (HC : 0 < 2 ^ (- ez)) by (apply Z.pow_pos_nonneg; lia).
  assert (Hmz0 : 0 ≤ mz) by (rewrite Hmz, Hm'; apply Z.div_pos; lia).
  assert (Hmzle : mz ≤ 2 ^ (- ez)).
  { rewrite Hmz, Hm'. apply Z.div_le_upper_bound; [lia|].
    apply Z.mul_le_mono_nonneg_r; lia. }
  destruct (binary_round_aux_value mz ez (new_location (Z.pos b) r) Hmz0)
    as (m2 & e1 & e2 & He1 & He12 & He2 & Hm2 & Hval & ->).
  assert (Hd : Zdigits2 mz ≤ - ez + 1).
  { apply Zdigits2_bound; [lia|]. split; [done|].
    rewrite Z.pow_add_r, Z.pow_1_r by lia. lia. }
  assert (He1le : e1 ≤ -52) by (rewrite He1; unfold fexp, emin, prec, emax; lia).
  assert (He2le : e2 ≤ -51).
  { specialize (He2 1). unfold fexp, emin, prec, emax in He2.
    assert (mz < 2 ^ (1 - ez)); [|lia].
    replace (1 - ez) with (- ez + 1) by lia. rewrite Z.pow_add_r, Z.pow_1_r by lia. lia. }
  destruct m2 as [|mq|mq]; [done| |lia].
  assert (Hfin : (e2 <=? emax - prec) = true) by (apply Z.leb_le; unfold emax, prec; lia).
  rewrite Hfin. cbn [float_le]. split; [lia|].
  set (A := 2 ^ (e2 - ez)) in *. set (B := 2 ^ (- e2)). set (C := 2 ^ (- ez)) in *.
  set (S := 2 ^ (e1 - ez)) in *.
  assert (HA : 0 < A) by (apply Z.pow_pos_nonneg; lia).
  assert (HAB : A * B = C).
  { subst A B C. rewrite <- Z.pow_add_r by lia. f_equal. lia. }
  assert (HS : S * 2 ^ 52 ≤ C).
  { subst S C. rewrite <- Z.pow_add_r by lia. apply Z.pow_le_mono_r; lia. }
  apply (Z.mul_le_mono_pos_r _ _ A); [done|]. nia.
Qed.

Lemma true_div_zero (a : Z) : true_div a 0 = Raise ZeroDivisionError.
Proof. unfold true_div. by rewrite decide_True. Qed.

(** A count over a count that is at least as large and not zero divides
    without an exception. *)
Lemma true_div_count (k n : nat) :
  (k ≤ n)%nat → n ≠ 0%nat →
  true_div (Z.of_nat k) (Z.of_nat n) = Ok (quotient k n).
Proof.
  intros Hkn Hn. unfold true_div. rewrite decide_False by lia.
  pose proof (quotient_bound k n Hkn Hn) as Hq. unfold quotient in *.
  by destruct (SFdiv prec emax _ _) as [[]|[]| |[] m e].
Qed.

Lemma length_filter_zero {A} (P : A → Prop) `{!∀ x, Decision (P x)} (l : list A) :
  length (filter P l) = 0%nat ↔ Forall (fun x => ¬ P x) l.
Proof.
  induction l as [|x l IH]; [by rewrite filter_nil|].
  destruct (decide (P x)) as [HP|HP].
  - rewrite filter_cons_True by done. split; [done|]. intros Hc. by inversion Hc.
  - rewrite filter_cons_False by done. rewrite IH. split.
    + by constructor.
    + intros Hc. by inversion Hc.
Qed.

(** C3.  [get_team_possession_stats] raises [ZeroDivisionError] exactly
    when no frame of the match carries the label "home team" or "away
    team"; it has no other result to report the absence of data. *)
Theorem C3_no_recognized_frame_raises (self : Analysis.t) :
  Analysis.get_team_possession_stats self = Raise ZeroDivisionError
  ↔ Forall (fun m => ¬ recognized m) (Match.moments (Analysis.match_ self)).
Proof.
  unfold Analysis.get_team_possession_stats.
  rewrite team_counts_spec. cbn [fst snd].
  set (ms := Match.moments (Analysis.match_ self)).
  set (nh := length (filter (fun m => Moment.possession_group m = Some "home team") ms)).
  set (na := length (filter (fun m => Moment.possession_group m = Some "away team") ms)).
  assert (Hiff : (nh + na = 0)%nat ↔ Forall (fun m => ¬ recognized m) ms).
  { transitivity (nh = 0%nat ∧ na = 0%nat); [lia|].
    subst nh na. rewrite !length_filter_zero, <- Forall_and.
    apply Forall_proper; [|done]. intros m. unfold recognized. tauto. }
  rewrite !Z.add_0_l, <- Nat2Z.inj_add.
  destruct (decide (nh + na = 0)%nat) as [Hz|Hnz].
  - rewrite Hz. change (Z.of_nat 0) with 0. rewrite true_div_zero.
    split; [by intros _; apply Hiff | done].
  - rewrite !true_div_count by lia. cbn [mbind result_bind].
    split; [discriminate|]. intros Hall. by apply Hiff in Hall.
Qed.

Example team_stats_no_data :
  (Analysis.__init__ (metadata one_referee valid_roster)
     [frame_json 1 None None; frame_json 2 (Some 10) (Some "Home Team")]
   ≫= Analysis.get_team_possession_stats) = Raise ZeroDivisionError.
Proof. vm_compute. reflexivity. Qed.

(** ** Possession segmentation *)

Lemma not_none_string_false (p : list Moment.t) :
  Analysis.not_none_string p = false ↔ p ≠ [] ∧ Forall null_group p.
Proof.
  unfold Analysis.not_none_string.
  rewrite bool_decide_eq_false. split.
  - intros Hset. apply dec_stable in Hset. split.
    + intros ->. simpl in Hset. set_solver.
    + apply Forall_forall. intros m Hm. unfold null_group.
      assert (Moment.possession_group m
              ∈ (list_to_set (map Moment.possession_group p) : gset (option string)))
        as Hin by (apply elem_of_list_to_set, list_elem_of_fmap; eauto).
      rewrite Hset in Hin. by apply elem_of_singleton in Hin.
  - intros [Hne Hall] Hset. apply Hset. apply set_eq. intros g.
    rewrite elem_of_list_to_set, elem_of_singleton, list_elem_of_fmap. split.
    + intros (m & -> & Hm). rewrite Forall_forall in Hall. by apply Hall.
    + intros ->. destruct p as [|m p]; [done|]. exists m.
      split; [|by left]. symmetry. by inversion Hall.
Qed.

Lemma not_none_string_nil : Analysis.not_none_string [] = true.
Proof.
  destruct (Analysis.not_none_string []) eqn:E; [done|].
  by apply not_none_string_false in E as [? _].
Qed.

Lemma not_none_string_true (p : list Moment.t) (m : Moment.t) :
  m ∈ p → ¬ null_group m → Analysis.not_none_string p = true.
Proof.
  intros Hin Hm. destruct (Analysis.not_none_string p) eqn:E; [done|].
  apply not_none_string_false in E as [_ Hall].
  rewrite Forall_forall in Hall. by destruct Hm; apply Hall.
Qed.

Lemma insert_stable_perm {A} (le : A → A → bool) (a : A) (l : list A) :
  insert_stable le a l ≡ₚ a :: l.
Proof.
  induction l as [|b l IH]; simpl; [done|].
  destruct (le a b); [done|]. rewrite IH. apply Permutation_swap.
Qed.

Lemma stable_sort_perm {A} (le : A → A → bool) (l : list A) :
  stable_sort le l ≡ₚ l.
Proof.
  induction l as [|a l IH]; simpl; [done|].
  by rewrite insert_stable_perm, IH.
Qed.

Lemma keyed_values {A} (key : A → option Z) (l : list A) (keyed : list (Z * A)) :
  comprehension (fun a => match key a with
                          | Some k => Ok (k, a)
                          | None => Raise TypeError
                          end) l = Ok keyed →
  keyed.*2 = l.
Proof.
  revert keyed. induction l as [|a l IH]; simpl; intros keyed H.
  - by inversion H.
  - apply bind_ok_inv in H as (b & Hb & H).
    apply bind_ok_inv in H as (bs & Hbs & H).
    inversion H; subst; clear H. rewrite fmap_cons. f_equal; [|by apply IH].
    destruct (key a); inversion Hb; by subst.
Qed.

Lemma sorted_by_key_perm {A} (key : A → option Z) (l l' : list A) :
  sorted_by_key key l = Ok l' → l' ≡ₚ l.
Proof.
  unfold sorted_by_key. destruct l as [|a [|b l]]; try by intros [= <-].
  intros H. apply bind_ok_inv in H as (keyed & Hk & H).
  inversion H; subst; clear H. apply keyed_values in Hk. rewrite <- Hk.
  apply fmap_Permutation, stable_sort_perm.
Qed.

(** What the scan has stored and what it still holds in the buffer make up
    the frames it has walked, in order. *)
Lemma scan_frames (ms : list Moment.t) (st : Analysis.scan) :
  let st' := foldl Analysis.scan_step st ms in
  concat (Analysis.possession_strings st') ++ Analysis.possession_buffer st'
  = concat (Analysis.possession_strings st) ++ Analysis.possession_buffer st ++ ms.
Proof.
  revert st. induction ms as [|m ms IH]; intros st; simpl.
  - by rewrite app_nil_r.
  - rewrite IH. unfold Analysis.scan_step. case_decide; simpl.
    + rewrite concat_app. simpl. by rewrite app_nil_r, <- !app_assoc.
    + by rewrite <- !app_assoc.
Qed.

(** After the first frame the buffer is never empty, and it is never
    appended to the result after the last frame. *)
Lemma scan_buffer_nonempty (ms : list Moment.t) (st : Analysis.scan) :
  ms ≠ [] ∨ Analysis.possession_buffer st ≠ [] →
  Analysis.possession_buffer (foldl Analysis.scan_step st ms) ≠ [].
Proof.
  revert st. induction ms as [|m ms IH]; intros st H; simpl.
  - by destruct H.
  - apply IH. right. unfold Analysis.scan_step. case_decide; simpl; [done|].
    by destruct (Analysis.possession_buffer st).
Qed.

Lemma total_frames_filter (P : list Moment.t → Prop) `{!∀ p, Decision (P p)}
    (segs : list (list Moment.t)) :
  (total_frames (filter P segs) ≤ total_frames segs)%nat.
Proof.
  unfold total_frames. induction segs as [|p ps IH]; [done|].
  rewrite filter_cons. case_decide; rewrite ?concat_cons, ?length_app; lia.
Qed.

Lemma build_possession_strings_frames (ms : list Moment.t) (segs : list (list Moment.t)) :
  Analysis._build_possession_strings ms = Ok segs →
  (total_frames segs ≤ length ms)%nat
  ∧ (ms ≠ [] → (total_frames segs < length ms)%nat).
Proof.
  unfold Analysis._build_possession_strings. intros H.
  apply bind_ok_inv in H as (sorted & Hs & H). inversion H; subst; clear H.
  apply sorted_by_key_perm in Hs.
  pose proof (scan_frames sorted Analysis.scan_init) as Hfr. simpl in Hfr.
  pose proof (total_frames_filter (fun p => Analysis.not_none_string p = true)
                (Analysis.possession_strings
                   (foldl Analysis.scan_step Analysis.scan_init sorted))) as Hle.
  unfold total_frames in *.
  apply (f_equal length) in Hfr. rewrite length_app in Hfr.
  rewrite <- (Permutation_length Hs). split; [lia|].
  intros Hne.
  assert (sorted ≠ []) as Hne' by (intros ->; by apply Permutation_nil_l in Hs).
  pose proof (scan_buffer_nonempty sorted Analysis.scan_init (or_introl Hne')) as Hb.
  destruct (Analysis.possession_buffer _); [done|]. simpl in Hfr. lia.
Qed.

(** The result holds as many frames as the input only for the empty input. *)
Lemma build_possession_strings_equality (ms : list Moment.t) (segs : list (list Moment.t)) :
  Analysis._build_possession_strings ms = Ok segs →
  (total_frames segs = length ms ↔ ms = []).
Proof.
  intros H. apply build_possession_strings_frames in H as [Hle Hlt]. split.
  - intros Heq. destruct ms as [|m ms]; [done|].
    assert (m :: ms ≠ []) as Hne by done. apply Hlt in Hne. simpl in *. lia.
  - intros ->. simpl in *. lia.
Qed.

Lemma scan_step_change (st : Analysis.scan) (m : Moment.t) :
  Analysis.previous_possession st ≠ Moment.possession_group m →
  Analysis.scan_step st m
  = {| Analysis.possession_strings :=
         Analysis.possession_strings st ++ [Analysis.possession_buffer st];
       Analysis.possession_buffer := [m];
       Analysis.previous_possession := Moment.possession_group m |}.
Proof. intros H. unfold Analysis.scan_step. by rewrite decide_True. Qed.

Lemma scan_step_same (st : Analysis.scan) (m : Moment.t) :
  Analysis.previous_possession st = Moment.possession_group m →
  Analysis.scan_step st m
  = {| Analysis.possession_strings := Analysis.possession_strings st;
       Analysis.possession_buffer := Analysis.possession_buffer st ++ [m];
       Analysis.previous_possession := Moment.possession_group m |}.
Proof. intros H. unfold Analysis.scan_step. rewrite decide_False; [done | by intros []]. Qed.

Lemma scan_cons (st : Analysis.scan) (m : Moment.t) (ms : list Moment.t) :
  foldl Analysis.scan_step st (m :: ms)
  = foldl Analysis.scan_step (Analysis.scan_step st m) ms.
Proof. reflexivity. Qed.

(** One frame of the scan, on a state and a frame that are given in full. *)
Ltac scan_one :=
  lazymatch goal with
  | |- context [foldl Analysis.scan_step ?st (?m :: ?ms)] =>
      rewrite (scan_cons st m ms);
      first [ rewrite (scan_step_change st m) by (cbn; congruence)
            | rewrite (scan_step_same st m) by (cbn; congruence) ];
      cbn [Analysis.possession_strings Analysis.possession_buffer
           Analysis.previous_possession Moment.possession_group frame_of app]
  end.

Lemma example_frames_scan (a b : string) :
  foldl Analysis.scan_step Analysis.scan_init (example_frames a b)
  = {| Analysis.possession_strings :=
         [ [];
           [frame_of 1 (Some 10) (Some a); frame_of 2 (Some 11) (Some a)];
           [frame_of 3 None None];
           [frame_of 4 (Some 20) (Some b); frame_of 5 (Some 20) (Some b);
            frame_of 6 (Some 21) (Some b)] ];
       Analysis.previous_possession := None;
       Analysis.possession_buffer := [frame_of 7 None None] |}.
Proof.
  unfold example_frames, Analysis.scan_init. do 7 scan_one. reflexivity.
Qed.

Lemma single_frame_scan (n : Z) (pid : option Z) (a : string) :
  foldl Analysis.scan_step Analysis.scan_init [frame_of n pid (Some a)]
  = {| Analysis.possession_strings := [ [] ];
       Analysis.previous_possession := Some a;
       Analysis.possession_buffer := [frame_of n pid (Some a)] |}.
Proof. unfold Analysis.scan_init. scan_one. reflexivity. Qed.

(** C1.  For frames 1 to 7 with the groups [a, a, null, b, b, b, null] the
    code returns three segments, not two: the empty buffer stored at the
    first frame, then [a, a], then [b, b, b].  The empty segment passes the
    filter, since the set of its groups is empty and so differs from
    [{None}]; [get_possession_strings] then raises [IndexError] on it. *)
Theorem C1_example_segments (a b : string) (self : Analysis.t) :
  Analysis._build_possession_strings (example_frames a b)
  = Ok [ [];
         [frame_of 1 (Some 10) (Some a); frame_of 2 (Some 11) (Some a)];
         [frame_of 4 (Some 20) (Some b); frame_of 5 (Some 20) (Some b);
          frame_of 6 (Some 21) (Some b)] ]
  ∧ Analysis.get_possession_strings (with_moments self (example_frames a b))
    = Raise IndexError.
Proof.
  assert (Hb : Analysis._build_possession_strings (example_frames a b)
               = Ok [ [];
                      [frame_of 1 (Some 10) (Some a); frame_of 2 (Some 11) (Some a)];
                      [frame_of 4 (Some 20) (Some b); frame_of 5 (Some 20) (Some b);
                       frame_of 6 (Some 21) (Some b)] ]).
  { unfold Analysis._build_possession_strings.
    change (sorted_by_key Moment.frame (example_frames a b)) with (Ok (example_frames a b)).
    cbn [mbind result_bind].
    rewrite example_frames_scan. cbn [Analysis.possession_strings].
    rewrite filter_cons_True by apply not_none_string_nil.
    rewrite filter_cons_True
      by (apply (not_none_string_true _ (frame_of 1 (Some 10) (Some a))); [by left|done]).
    rewrite filter_cons_False
      by (apply not_true_iff_false, not_none_string_false; split; [done|by repeat constructor]).
    rewrite filter_cons_True
      by (apply (not_none_string_true _ (frame_of 4 (Some 20) (Some b))); [by left|done]).
    by rewrite filter_nil. }
  split; [done|].
  unfold Analysis.get_possession_strings.
  change (Match.moments (Analysis.match_ (with_moments self (example_frames a b))))
    with (example_frames a b).
  by rewrite Hb.
Qed.

(** C2.  A single frame with a non-null group, and so an input without
    any null frame, comes back as one empty segment: the buffer that holds
    the frame when the scan ends is never stored.  No frame survives,
    against one input frame. *)
Theorem C2_last_run_lost (n : Z) (pid : option Z) (a : string) :
  Analysis._build_possession_strings [frame_of n pid (Some a)] = Ok [[]]
  ∧ total_frames [[]] = 0%nat
  ∧ length [frame_of n pid (Some a)] = 1%nat
  ∧ ¬ Exists null_group [frame_of n pid (Some a)].
Proof.
  split; [|split; [done|split; [done|]]].
  - unfold Analysis._build_possession_strings.
    change (sorted_by_key Moment.frame [frame_of n pid (Some a)])
      with (Ok [frame_of n pid (Some a)]).
    cbn [mbind result_bind].
    rewrite single_frame_scan. cbn [Analysis.possession_strings].
    rewrite filter_cons_True by apply not_none_string_nil. by rewrite filter_nil.
  - intros H. apply Exists_cons in H as [H|H]; [done|]. by apply Exists_nil in H.
Qed.

(** ** Dictionaries *)

Section DictFacts.
Context {K V : Type} `{EqDecision K}.
Implicit Types (d : dict K V) (k : K) (v : V).

Lemma dict_get_setitem d k v k' :
  dict_get (dict_setitem d k v) k' = if decide (k = k') then Some v else dict_get d k'.
Proof.
  induction d as [|[k0 v0] d IH]; simpl.
  - by destruct (decide (k = k')).
  - destruct (decide (k0 = k)) as [->|Hne]; simpl.
    + by destruct (decide (k = k')).
    + rewrite IH. destruct (decide (k0 = k')) as [->|]; [|done].
      by rewrite decide_False by done.
Qed.

Lemma dict_keys_setitem d k v k' :
  k' ∈ dict_keys (dict_setitem d k v) ↔ k' = k ∨ k' ∈ dict_keys d.
Proof.
  unfold dict_keys. induction d as [|[k0 v0] d IH]; simpl.
  - rewrite elem_of_cons. split; [intros [?|?]; auto | intros [?|?]; auto].
  - destruct (decide (k0 = k)) as [->|Hne]; simpl; rewrite !elem_of_cons.
    + tauto.
    + rewrite IH. tauto.
Qed.

Lemma dict_keys_setitem_NoDup d k v :
  NoDup (dict_keys d) → NoDup (dict_keys (dict_setitem d k v)).
Proof.
  unfold dict_keys. induction d as [|[k0 v0] d IH]; simpl; intros Hnd.
  - apply NoDup_singleton.
  - apply NoDup_cons in Hnd as [Hk0 Hnd].
    destruct (decide (k0 = k)) as [->|Hne]; simpl; apply NoDup_cons.
    + done.
    + split; [|by apply IH].
      intros Hin. apply (dict_keys_setitem d k v k0) in Hin as [?|?]; done.
Qed.

Lemma dict_get_Some d k v : dict_get d k = Some v → (k, v) ∈ d.
Proof.
  induction d as [|[k0 v0] d IH]; simpl; [done|].
  destruct (decide (k0 = k)) as [->|Hne].
  - intros [= ->]. by left.
  - intros H. right. by apply IH.
Qed.

Lemma dict_get_elem_of d k v : NoDup (dict_keys d) → (k, v) ∈ d → dict_get d k = Some v.
Proof.
  unfold dict_keys. induction d as [|[k0 v0] d IH]; simpl; intros Hnd Hin.
  - by apply not_elem_of_nil in Hin.
  - apply NoDup_cons in Hnd as [Hk0 Hnd].
    apply elem_of_cons in Hin as [[= -> ->]|Hin].
    + by rewrite decide_True.
    + rewrite decide_False; [by apply IH|].
      intros ->. apply Hk0. by apply (list_elem_of_fmap_2 fst) in Hin.
Qed.

Lemma dict_get_None d k : dict_get d k = None ↔ k ∉ dict_keys d.
Proof.
  unfold dict_keys. induction d as [|[k0 v0] d IH]; simpl.
  - split; [intros _; apply not_elem_of_nil | done].
  - rewrite not_elem_of_cons. destruct (decide (k0 = k)) as [->|Hne].
    + split; [done | by intros [? _]].
    + rewrite IH. split; [by split | by intros [_ ?]].
Qed.

(** The accumulated dict while the items are inserted one by one. *)
Lemma foldl_setitem_keys (items : list (K * V)) d k :
  k ∈ dict_keys (foldl (fun d kv => dict_setitem d kv.1 kv.2) d items)
  ↔ k ∈ items.*1 ∨ k ∈ dict_keys d.
Proof.
  revert d. induction items as [|[k0 v0] items IH]; intros d; simpl.
  - rewrite elem_of_nil. tauto.
  - rewrite IH, dict_keys_setitem, elem_of_cons. tauto.
Qed.

Lemma foldl_setitem_NoDup (items : list (K * V)) d :
  NoDup (dict_keys d) →
  NoDup (dict_keys (foldl (fun d kv => dict_setitem d kv.1 kv.2) d items)).
Proof.
  revert d. induction items as [|[k0 v0] items IH]; intros d Hnd; simpl; [done|].
  by apply IH, dict_keys_setitem_NoDup.
Qed.

Lemma foldl_setitem_elem_of (items : list (K * V)) d k v :
  (k, v) ∈ foldl (fun d kv => dict_setitem d kv.1 kv.2) d items →
  (k, v) ∈ items ∨ (k, v) ∈ d.
Proof.
  revert d. induction items as [|[k0 v0] items IH]; intros d; simpl; [auto|].
  intros Hin. apply IH in Hin as [Hin|Hin]; [left; by right|].
  assert (Hset : ∀ d', (k, v) ∈ dict_setitem d' k0 v0 → (k, v) = (k0, v0) ∨ (k, v) ∈ d').
  { clear. induction d' as [|[k1 v1] d' IHd]; simpl.
    - rewrite list_elem_of_singleton. auto.
    - destruct (decide (k1 = k0)) as [->|Hne]; rewrite !elem_of_cons.
      + intros [?|?]; auto.
      + intros [?|Hin]; [auto|]. apply IHd in Hin as [?|?]; auto. }
  apply Hset in Hin as [->|Hin]; [left; by left | by right].
Qed.

Lemma dict_of_items_keys (items : list (K * V)) k :
  k ∈ dict_keys (dict_of_items items) ↔ k ∈ items.*1.
Proof.
  unfold dict_of_items. rewrite foldl_setitem_keys. simpl. rewrite elem_of_nil. tauto.
Qed.

Lemma dict_of_items_NoDup (items : list (K * V)) : NoDup (dict_keys (dict_of_items items)).
Proof. apply foldl_setitem_NoDup. constructor. Qed.

Lemma dict_of_items_elem_of (items : list (K * V)) k v :
  (k, v) ∈ dict_of_items items → (k, v) ∈ items.
Proof.
  intros Hin. apply foldl_setitem_elem_of in Hin as [?|Hin]; [done|].
  by apply not_elem_of_nil in Hin.
Qed.
End DictFacts.

Section DictInvert.
Context {K V : Type} `{EqDecision K, EqDecision V}.
Implicit Types (d : dict K V).

Lemma dict_invert_keys d v : v ∈ dict_keys (dict_invert d) ↔ v ∈ dict_values d.
Proof.
  unfold dict_invert. rewrite dict_of_items_keys. unfold dict_values.
  rewrite !list_elem_of_fmap. split.
  - intros ([v' k'] & -> & Hin). apply list_elem_of_fmap in Hin as ([k0 v0] & [= -> ->] & Hin).
    by exists (k0, v0).
  - intros ([k0 v0] & -> & Hin). exists (v0, k0). split; [done|].
    apply list_elem_of_fmap. by exists (k0, v0).
Qed.

(** Looking up a value in the inverted dict gives a key that holds it. *)
Lemma dict_invert_get d v k :
  NoDup (dict_keys d) → dict_get (dict_invert d) v = Some k → dict_get d k = Some v.
Proof.
  intros Hnd Hget. apply dict_get_Some, dict_of_items_elem_of in Hget.
  apply list_elem_of_fmap in Hget as ([k0 v0] & [= -> ->] & Hin).
  by apply dict_get_elem_of.
Qed.

(** With no value held twice, the inverted dict gives back the key. *)
Lemma dict_invert_get_inj d k v :
  NoDup (dict_values d) → dict_get d k = Some v → dict_get (dict_invert d) v = Some k.
Proof.
  intros Hnd Hget. apply dict_get_Some in Hget.
  destruct (dict_get (dict_invert d) v) as [k'|] eqn:Hinv.
  - apply dict_get_Some, dict_of_items_elem_of in Hinv.
    apply list_elem_of_fmap in Hinv as ([k0 v0] & [= -> ->] & Hin).
    f_equal. unfold dict_values in Hnd.
    apply list_elem_of_lookup in Hget as [i Hi]. apply list_elem_of_lookup in Hin as [j Hj].
    assert (i = j) as ->.
    { apply (NoDup_lookup (d.*2) i j v0); [done| |]; rewrite list_lookup_fmap.
      - by rewrite Hi. - by rewrite Hj. }
    congruence.
  - apply dict_get_None in Hinv. destruct Hinv.
    apply dict_invert_keys. unfold dict_values.
    by apply (list_elem_of_fmap_2 snd) in Hget.
Qed.
End DictInvert.

(** ** Match: the two lookups *)

Lemma build_lookups_spec (home away : list Player.t) (ball_id_ referee_id_ : option Z) :
  let lk := Match._build_lookups home away ball_id_ referee_id_ in
  NoDup (dict_keys lk.1)
  ∧ (∀ i, i ∈ dict_keys lk.1
          ↔ i ∈ map Player.player_id (home ++ away) ∨ i = ball_id_ ∨ i = referee_id_)
  ∧ lk.2 = dict_invert lk.1.
Proof.
  unfold Match._build_lookups; cbn [fst snd]. split; [|split; [|done]].
  - apply dict_keys_setitem_NoDup, dict_keys_setitem_NoDup, dict_of_items_NoDup.
  - intros i. rewrite !dict_keys_setitem, dict_of_items_keys.
    rewrite <- list_fmap_compose.
    change (fst ∘ _) with Player.player_id. tauto.
Qed.

(** C7, as amended.  After Match construction the identifier-to-name
    lookup has as keys the player identifiers, the ball identifier and the
    referee identifier, and the name-to-identifier lookup has as keys the
    names the first one holds.  Looking a name up and then the identifier
    found gives the name back, always.  Looking an identifier up and then
    the name found gives the identifier back when no display name is held
    by two identifiers; the two lookups are then mutual inverses. *)
Theorem C7_lookups_inverse (mj : MatchJson.t) (sj : list MomentJson.t) (M : Match.t) :
  Match.__init__ mj sj = Ok M →
  (∀ i, i ∈ dict_keys (Match.id_to_name M)
        ↔ i ∈ map Player.player_id (Match.all_players M)
          ∨ i = Match.ball_id M ∨ i = Match.referee_id M)
  ∧ (∀ n, n ∈ dict_keys (Match.name_to_id M) ↔ n ∈ dict_values (Match.id_to_name M))
  ∧ (∀ n i, dict_get (Match.name_to_id M) n = Some i
            → dict_get (Match.id_to_name M) i = Some n)
  ∧ (NoDup (dict_values (Match.id_to_name M))
     → mutual_inverses (Match.id_to_name M) (Match.name_to_id M)).
Proof.
  intros HM. apply Match_init_ok_inv in HM as (_ & _ & _ & _ & _ & Hall & _ & _ & Hlk & _).
  pose proof (build_lookups_spec (Match.home_team_players M) (Match.away_team_players M)
                (Match.ball_id M) (Match.referee_id M)) as (Hnd & Hkeys & Hinv).
  rewrite <- Hlk in Hnd, Hkeys, Hinv. cbn [fst snd] in Hnd, Hkeys, Hinv.
  rewrite Hall, Hinv. repeat split.
  - by apply Hkeys.
  - by apply Hkeys.
  - by apply dict_invert_keys.
  - by apply dict_invert_keys.
  - intros n i. by apply dict_invert_get.
  - intros i n. by apply dict_invert_get_inj.
  - intros n i. by apply dict_invert_get.
Qed.

(** C7 at a roster of three players with three different names. *)
Lemma C7_lookups_inverse_witness :
  ∃ M, Match.__init__ (metadata one_referee valid_roster) [] = Ok M
       ∧ mutual_inverses (Match.id_to_name M) (Match.name_to_id M).
Proof.
  eexists. split; [vm_compute; reflexivity|].
  eapply (C7_lookups_inverse (metadata one_referee valid_roster) []); [reflexivity|].
  apply (bool_decide_unpack _). vm_compute. reflexivity.
Defined.

(** The claim C7 as stated fails for a roster with two players called
    Silva: identifier 10 is named Silva, and Silva resolves to 20. *)
Lemma C7_counterexample :
  ∃ M, Match.__init__ (metadata one_referee namesake_roster) [] = Ok M
       ∧ dict_get (Match.id_to_name M) (Some 10) = Some (Some "Silva")
       ∧ dict_get (Match.name_to_id M) (Some "Silva") = Some (Some 20)
       ∧ ¬ mutual_inverses (Match.id_to_name M) (Match.name_to_id M).
Proof.
  eexists. split; [vm_compute; reflexivity|].
  split; [reflexivity|]. split; [reflexivity|].
  intros [H _]. specialize (H (Some 10) (Some "Silva") eq_refl).
  vm_compute in H. discriminate H.
Qed.

(** ** Player possession share *)

Lemma truthy_counted (m : Moment.t) :
  truthy (Moment.possession_id m) = true ↔ holder_counted m.
Proof.
  unfold truthy, holder_counted. destruct (Moment.possession_id m) as [i|]; [|done].
  rewrite negb_true_iff, Z.eqb_neq. done.
Qed.

Lemma possessor_names_spec (self : Analysis.t) :
  Analysis.possessor_names self
  = map (holder_name self) (filter holder_counted (Match.moments (Analysis.match_ self))).
Proof.
  unfold Analysis.possessor_names. f_equal.
  apply list_filter_iff. intros m. apply truthy_counted.
Qed.

Lemma sum_values_cons {K} (k : K) (v : Z) (c : dict K Z) :
  sum_values ((k, v) :: c) = v + sum_values c.
Proof.
  unfold sum_values, dict_values. rewrite fmap_cons. cbn [foldl snd].
  generalize (c.*2). intros l. replace (0 + v) with v by lia.
  assert (H : ∀ a b, foldl Z.add (a + b) l = a + foldl Z.add b l).
  { induction l as [|x l IH]; intros a b; cbn [foldl]; [done|].
    by rewrite <- Z.add_assoc, IH. }
  rewrite <- (H v 0). f_equal. lia.
Qed.

Section CounterFacts.
Context {K : Type} `{EqDecision K}.
Implicit Types (c : dict K Z) (l : list K) (k : K).

Lemma sum_values_increment c k :
  sum_values (dict_setitem c k (default 0 (dict_get c k) + 1)) = sum_values c + 1.
Proof.
  induction c as [|[k0 v0] c IH]; cbn [dict_setitem dict_get].
  - done.
  - destruct (decide (k0 = k)) as [->|Hne].
    + rewrite !sum_values_cons. cbn [default from_option id]. lia.
    + rewrite !sum_values_cons, IH. lia.
Qed.

Lemma counter_foldl_sum l c :
  sum_values (foldl (fun c k => dict_setitem c k (default 0 (dict_get c k) + 1)) c l)
  = sum_values c + Z.of_nat (length l).
Proof.
  revert c. induction l as [|k l IH]; intros c; cbn [foldl length].
  - lia.
  - rewrite IH, sum_values_increment. lia.
Qed.

Lemma counter_foldl_get l c k :
  default 0 (dict_get (foldl (fun c k => dict_setitem c k (default 0 (dict_get c k) + 1))
                             c l) k)
  = default 0 (dict_get c k) + Z.of_nat (length (filter (fun k' => k' = k) l)).
Proof.
  revert c. induction l as [|k0 l IH]; intros c; cbn [foldl].
  - rewrite filter_nil. simpl. lia.
  - rewrite IH, dict_get_setitem. destruct (decide (k0 = k)) as [->|Hne].
    + rewrite filter_cons_True by done. cbn [default from_option id length]. lia.
    + rewrite filter_cons_False by done. lia.
Qed.

(** The counts of a [Counter] add up to the number of elements counted. *)
Lemma Counter_sum l : sum_values (Counter_of_list l) = Z.of_nat (length l).
Proof. unfold Counter_of_list. by rewrite counter_foldl_sum. Qed.

Lemma Counter_get l k :
  default 0 (dict_get (Counter_of_list l) k)
  = Z.of_nat (length (filter (fun k' => k' = k) l)).
Proof. unfold Counter_of_list. by rewrite counter_foldl_get. Qed.
End CounterFacts.

Lemma filter_fmap_length {A B} (f : A → B) (P : B → Prop) `{!∀ b, Decision (P b)}
    (l : list A) :
  length (filter P (map f l)) = length (filter (fun a => P (f a)) l).
Proof.
  induction l as [|a l IH]; [done|]. cbn [map].
  rewrite !filter_cons. case_decide; simpl; by rewrite IH.
Qed.

(** C10.  The inclusion test of [get_player_possession_stats] passes
    exactly the frames whose holder identifier is neither null nor zero.
    The denominator, the sum of the raw counts, is the number of those
    frames, and the numerator of a name is the number of those frames whose
    holder resolves to the name.  A frame whose holder identifier is 0, like
    a frame whose holder identifier is null, can be taken out of the
    sequence without changing any share. *)
Theorem C10_zero_holder_excluded (self : Analysis.t) :
  let ms := Match.moments (Analysis.match_ self) in
  let raw_counts := Counter_of_list (Analysis.possessor_names self) in
  (∀ m, truthy (Moment.possession_id m) = true ↔ holder_counted m)
  ∧ Analysis.possessor_names self = map (holder_name self) (filter holder_counted ms)
  ∧ sum_values raw_counts = Z.of_nat (length (filter holder_counted ms))
  ∧ (∀ n, default 0 (dict_get raw_counts n)
          = Z.of_nat (length (filter (fun m => holder_counted m ∧ holder_name self m = n) ms)))
  ∧ (∀ l1 m l2,
        ms = l1 ++ m :: l2 →
        Moment.possession_id m = Some 0 ∨ Moment.possession_id m = None →
        Analysis.get_player_possession_stats self
        = Analysis.get_player_possession_stats (with_moments self (l1 ++ l2))).
Proof.
  intros ms raw_counts. split; [apply truthy_counted|].
  split; [apply possessor_names_spec|]. split; [|split].
  - subst raw_counts. rewrite Counter_sum, possessor_names_spec. by rewrite length_map.
  - intros n. subst raw_counts. rewrite Counter_get, possessor_names_spec.
    rewrite filter_fmap_length. f_equal. fold ms.
    rewrite list_filter_filter. f_equal. apply list_filter_iff. intros m. tauto.
  - intros l1 m l2 Hms Hm.
    assert (Hnames : Analysis.possessor_names self
                     = Analysis.possessor_names (with_moments self (l1 ++ l2))).
    { rewrite !possessor_names_spec. fold ms. rewrite Hms.
      change (Match.moments (Analysis.match_ (with_moments self (l1 ++ l2))))
        with (l1 ++ l2).
      rewrite !filter_app, filter_cons_False; [done|].
      unfold holder_counted. destruct Hm as [-> | ->]; [intros H; by apply H | by intros []]. }
    unfold Analysis.get_player_possession_stats. by rewrite Hnames.
Qed.

(** C10 at three frames held by 10, 0 and 20: the shares are those of the
    two frames held by 10 and 20. *)
Lemma C10_zero_holder_excluded_witness :
  ∃ self,
    Analysis.__init__ (metadata one_referee valid_roster)
      [frame_json 1 (Some 10) (Some "home team"); frame_json 2 (Some 0) (Some "home team");
       frame_json 3 (Some 20) (Some "away team")] = Ok self
    ∧ Analysis.get_player_possession_stats self
      = Analysis.get_player_possession_stats
          (with_moments self [frame_of 1 (Some 10) (Some "home team");
                              frame_of 3 (Some 20) (Some "away team")]).
Proof.
  eexists. split; [vm_compute; reflexivity|].
  lazymatch goal with
  | |- Analysis.get_player_possession_stats ?s = _ =>
      destruct (C10_zero_holder_excluded s) as (_ & _ & _ & _ & H)
  end.
  apply (H [frame_of 1 (Some 10) (Some "home team")]
           (frame_of 2 (Some 0) (Some "home team"))
           [frame_of 3 (Some 20) (Some "away team")]); [reflexivity | by left].
Defined.

(** The count of a name over the sum of the counts divides without an
    exception. *)
Lemma true_div_counter {K} `{EqDecision K} (l : list K) (k : K) :
  l ≠ [] →
  true_div (default 0 (dict_get (Counter_of_list l) k)) (sum_values (Counter_of_list l))
  = Ok (quotient (length (filter (fun k' => k' = k) l)) (length l)).
Proof.
  intros Hl. rewrite Counter_sum, Counter_get. apply true_div_count.
  - apply length_filter.
  - by destruct l.
Qed.

(** Unlike the team shares, the player shares never divide by zero: with
    no counted frame there is no name to compute a share for. *)
Lemma player_stats_never_raise (self : Analysis.t) :
  ∃ shares, Analysis.get_player_possession_stats self = Ok shares
            ∧ (filter holder_counted (Match.moments (Analysis.match_ self)) = []
               → shares = []).
Proof.
  unfold Analysis.get_player_possession_stats.
  pose proof (possessor_names_spec self) as Hspec.
  destruct (Analysis.possessor_names self) as [|n l] eqn:Hl.
  - exists []. by split.
  - set (c := Counter_of_list (n :: l)).
    assert (Hc : ∀ items : list (option string * Z),
               ∃ out, comprehension
                        (fun nc : option string * Z =>
                           q ← true_div (default 0 (dict_get c nc.1)) (sum_values c);
                           Ok (nc.1, np_round q 2)) items = Ok out).
    { induction items as [|nc items [out IH]]; cbn [comprehension]; [by eexists|].
      subst c. rewrite true_div_counter by done.
      cbn [mbind result_bind]. rewrite IH. by eexists. }
    destruct (Hc (most_common c)) as [out Hout]. rewrite Hout. simpl.
    eexists. split; [done|]. intros Hf. rewrite Hf in Hspec. done.
Qed.

(** What the scan has stored is never changed again, only extended. *)
Lemma scan_strings_prefix (ms : list Moment.t) (st : Analysis.scan) :
  ∃ more, Analysis.possession_strings (foldl Analysis.scan_step st ms)
          = Analysis.possession_strings st ++ more.
Proof.
  revert st. induction ms as [|m ms IH]; intros st.
  - exists []. by rewrite app_nil_r.
  - rewrite scan_cons. destruct (IH (Analysis.scan_step st m)) as [more ->].
    unfold Analysis.scan_step. case_decide; simpl.
    + eexists. by rewrite <- app_assoc.
    + by eexists.
Qed.

(** Whenever the first frame in frame order has a non-null group, the
    result starts with the empty segment. *)
Lemma leading_empty_segment (ms rest : list Moment.t) (m : Moment.t) :
  sorted_by_key Moment.frame ms = Ok (m :: rest) →
  ¬ null_group m →
  ∃ segs, Analysis._build_possession_strings ms = Ok ([] :: segs).
Proof.
  intros Hs Hm. unfold Analysis._build_possession_strings. rewrite Hs.
  cbn [mbind result_bind]. rewrite scan_cons.
  rewrite scan_step_change by (cbn; intros Hn; by apply Hm).
  destruct (scan_strings_prefix rest
              {| Analysis.possession_strings :=
                   Analysis.possession_strings Analysis.scan_init
                   ++ [Analysis.possession_buffer Analysis.scan_init];
                 Analysis.possession_buffer := [m];
                 Analysis.previous_possession := Moment.possession_group m |})
    as [more ->].
  cbn [Analysis.possession_strings Analysis.possession_buffer Analysis.scan_init app].
  rewrite filter_cons_True by apply not_none_string_nil. by eexists.
Qed.

(** Every segment returned is empty or holds a frame with a group: the
    filter drops exactly the non-empty segments that are null throughout. *)
Lemma returned_segments (ms : list Moment.t) (segs : list (list Moment.t)) :
  Analysis._build_possession_strings ms = Ok segs →
  Forall (fun p => p = [] ∨ Exists (fun m => ¬ null_group m) p) segs.
Proof.
  unfold Analysis._build_possession_strings. intros H.
  apply bind_ok_inv in H as (sorted & _ & H). inversion H; subst; clear H.
  apply Forall_forall. intros p Hp. apply list_elem_of_filter in Hp as [Hp _].
  destruct p as [|m p]; [by left|]. right.
  apply not_Forall_Exists; [apply _|]. intros Hall.
  assert (Analysis.not_none_string (m :: p) = false) as Hf
    by (apply not_none_string_false; by split).
  congruence.
Qed.

(** * Further properties of the code *)

(** ** Possession segmentation: what every result satisfies *)

(** X1.  Whenever [_build_possession_strings] returns, the segments hold at
    most as many frames as the input, and strictly fewer for a non-empty
    input: the run that is in the buffer when the scan ends is not part of
    the result. *)
Theorem X1_segments_lose_last_run (ms : list Moment.t) (segs : list (list Moment.t)) :
  Analysis._build_possession_strings ms = Ok segs →
  (total_frames segs ≤ length ms)%nat
  ∧ (ms ≠ [] → (total_frames segs < length ms)%nat).
Proof. apply build_possession_strings_frames. Qed.

(** X1 at the frames 1 to 7 of the two-team example: five of the seven
    frames are returned. *)
Lemma X1_segments_lose_last_run_witness :
  let segs :=
    [ [];
      [frame_of 1 (Some 10) (Some "home team"); frame_of 2 (Some 11) (Some "home team")];
      [frame_of 4 (Some 20) (Some "away team"); frame_of 5 (Some 20) (Some "away team");
       frame_of 6 (Some 21) (Some "away team")] ] in
  (total_frames segs < length (example_frames "home team" "away team"))%nat.
Proof.
  apply (X1_segments_lose_last_run (example_frames "home team" "away team"));
    [vm_compute; reflexivity | discriminate].
Defined.


Lemma scan_one_group (ms : list Moment.t) (st : Analysis.scan) :
  Forall one_group (Analysis.possession_strings st) →
  Forall (fun m => Moment.possession_group m = Analysis.previous_possession st)
         (Analysis.possession_buffer st) →
  let st' := foldl Analysis.scan_step st ms in
  Forall one_group (Analysis.possession_strings st')
  ∧ Forall (fun m => Moment.possession_group m = Analysis.previous_possession st')
           (Analysis.possession_buffer st').
Proof.
  revert st. induction ms as [|m ms IH]; intros st Hs Hb; [done|].
  rewrite scan_cons. apply IH; unfold Analysis.scan_step; case_decide; simpl.
  - apply Forall_app. split; [done|]. constructor; [|done].
    by exists (Analysis.previous_possession st).
  - done.
  - by repeat constructor.
  - apply Forall_app. split; [|by repeat constructor].
    eapply Forall_impl; [exact Hb|]. intros m' Hm'. simpl in Hm'.
    by rewrite Hm'.
Qed.

(** Every returned segment holds one group, and no null frame unless it is
    empty. *)
Lemma returned_segments_one_group (ms : list Moment.t) (segs : list (list Moment.t)) :
  Analysis._build_possession_strings ms = Ok segs →
  Forall (fun p => one_group p ∧ (p ≠ [] → Forall (fun m => ¬ null_group m) p)) segs.
Proof.
  intros H. pose proof (returned_segments ms segs H) as Hret.
  unfold Analysis._build_possession_strings in H.
  apply bind_ok_inv in H as (sorted & _ & H). inversion H; subst; clear H.
  destruct (scan_one_group sorted Analysis.scan_init) as [Hone _]; [constructor..|].
  rewrite Forall_forall in Hone, Hret. apply Forall_forall. intros p Hp.
  assert (one_group p) as Hg by (apply Hone; by apply list_elem_of_filter in Hp as [_ ?]).
  split; [done|]. intros Hne.
  destruct (Hret p Hp) as [->|Hex]; [done|].
  destruct Hg as [g Hg]. apply Exists_exists in Hex as (m0 & Hm0 & Hnn).
  rewrite Forall_forall in Hg. apply Forall_forall. intros m Hm.
  unfold null_group in *. rewrite (Hg m Hm), <- (Hg m0 Hm0). done.
Qed.

(** X2.  Every segment that [_build_possession_strings] returns holds
    frames of one possession group only, and a returned segment that is not
    empty holds no frame with a null group. *)
Theorem X2_segments_single_group (ms : list Moment.t) (segs : list (list Moment.t)) :
  Analysis._build_possession_strings ms = Ok segs →
  Forall (fun p => one_group p ∧ (p ≠ [] → Forall (fun m => ¬ null_group m) p)) segs.
Proof. apply returned_segments_one_group. Qed.

(** X2 at the frames 1 to 7 of the two-team example. *)
Lemma X2_segments_single_group_witness :
  Forall (fun p => one_group p ∧ (p ≠ [] → Forall (fun m => ¬ null_group m) p))
    [ [];
      [frame_of 1 (Some 10) (Some "home team"); frame_of 2 (Some 11) (Some "home team")];
      [frame_of 4 (Some 20) (Some "away team"); frame_of 5 (Some 20) (Some "away team");
       frame_of 6 (Some 21) (Some "away team")] ].
Proof.
  apply (X2_segments_single_group (example_frames "home team" "away team")).
  vm_compute. reflexivity.
Defined.

Lemma sorted_by_key_raises {A} (key : A → option Z) (l : list A) (e : exn) :
  sorted_by_key key l = Raise e
  ↔ e = TypeError ∧ (2 ≤ length l)%nat ∧ Exists (fun a => key a = None) l.
Proof.
  unfold sorted_by_key. destruct l as [|a [|b l]].
  - split; [done|]. intros (_ & Hl & _). simpl in Hl. lia.
  - split; [done|]. intros (_ & Hl & _). simpl in Hl. lia.
  - set (f := fun a => match key a with Some k => Ok (k, a) | None => Raise TypeError end).
    split.
    + intros H. apply bind_raise_inv in H as [H|(keyed & _ & H)]; [|done].
      apply comprehension_raises in H as (x & Hin & Hx). subst f. simpl in Hx.
      destruct (key x) eqn:Hk; [done|]. inversion Hx; subst.
      split; [done|]. split; [simpl; lia|]. apply Exists_exists. eauto.
    + intros (-> & _ & Hex).
      destruct (comprehension f (a :: b :: l)) as [keyed|e] eqn:Hc.
      * exfalso. apply Exists_exists in Hex as (x & Hin & Hx).
        clear -Hc Hin Hx. revert keyed Hc.
        induction (a :: b :: l) as [|y l' IH]; intros keyed Hc;
          [by apply not_elem_of_nil in Hin|].
        simpl in Hc. apply bind_ok_inv in Hc as (kv & Hkv & Hc).
        apply bind_ok_inv in Hc as (kvs & Hkvs & _).
        apply elem_of_cons in Hin as [->|Hin].
        -- subst f. simpl in Hkv. by rewrite Hx in Hkv.
        -- by apply (IH Hin kvs).
      * simpl. apply comprehension_raises in Hc as (x & _ & Hx). subst f. simpl in Hx.
        destruct (key x); [done|]. by inversion Hx.
Qed.

(** X3.  [_build_possession_strings] has one way to fail: it raises
    [TypeError], and does so exactly when the input has at least two frames
    and one of them has no frame index, which [sorted] cannot compare.  A
    single frame without a frame index is accepted. *)
Theorem X3_segmentation_type_error (ms : list Moment.t) (e : exn) :
  Analysis._build_possession_strings ms = Raise e
  ↔ e = TypeError ∧ (2 ≤ length ms)%nat ∧ Exists (fun m => Moment.frame m = None) ms.
Proof.
  rewrite <- sorted_by_key_raises. unfold Analysis._build_possession_strings.
  destruct (sorted_by_key Moment.frame ms) as [sorted|e']; simpl; [done|].
  split; by intros [= ->].
Qed.

Section StableSort.
Context {A : Type} (le : A → A → bool).
Hypothesis le_total : ∀ a b, le a b = false → le b a = true.
Hypothesis le_trans : ∀ a b c, le a b = true → le b c = true → le a c = true.

Lemma insert_stable_sorted (a : A) (l : list A) :
  StronglySorted (fun x y => le x y = true) l →
  StronglySorted (fun x y => le x y = true) (insert_stable le a l).
Proof.
  induction l as [|b l IH]; intros Hs; simpl.
  - by repeat constructor.
  - apply StronglySorted_cons in Hs as [Hb Hs].
    destruct (le a b) eqn:Hab.
    + apply StronglySorted_cons. split.
      * constructor; [done|]. eapply Forall_impl; [exact Hb|]. intros x Hx. simpl in *.
        by apply (le_trans a b x).
      * by apply StronglySorted_cons.
    + apply StronglySorted_cons. split; [|by apply IH].
      rewrite insert_stable_perm. constructor; [by apply le_total|done].
Qed.

Lemma stable_sort_sorted (l : list A) :
  StronglySorted (fun x y => le x y = true) (stable_sort le l).
Proof.
  induction l as [|a l IH]; simpl; [constructor|]. by apply insert_stable_sorted.
Qed.
End StableSort.

Lemma keyed_keys {A} (key : A → option Z) (l : list A) (keyed : list (Z * A)) :
  comprehension (fun a => match key a with
                          | Some k => Ok (k, a)
                          | None => Raise TypeError
                          end) l = Ok keyed →
  Forall (fun ka => key ka.2 = Some ka.1) keyed.
Proof.
  revert keyed. induction l as [|a l IH]; simpl; intros keyed H.
  - inversion H. constructor.
  - apply bind_ok_inv in H as (b & Hb & H).
    apply bind_ok_inv in H as (bs & Hbs & H).
    inversion H; subst; clear H. constructor; [|by apply IH].
    destruct (key a) eqn:Hk; inversion Hb; by subst.
Qed.

Lemma sorted_by_key_sorted {A} (key : A → option Z) (l l' : list A) :
  sorted_by_key key l = Ok l' →
  StronglySorted (fun x y => ∃ a b, key x = Some a ∧ key y = Some b ∧ a ≤ b) l'.
Proof.
  unfold sorted_by_key. destruct l as [|a [|b l]].
  - intros [= <-]. constructor.
  - intros [= <-]. by repeat constructor.
  - intros H. apply bind_ok_inv in H as (keyed & Hk & H). inversion H; subst; clear H.
    pose proof (keyed_keys _ _ _ Hk) as Hkeys.
    assert (Hs : StronglySorted (fun x y : Z * A => (x.1 <=? y.1) = true)
                   (stable_sort (fun x y : Z * A => x.1 <=? y.1) keyed)).
    { apply stable_sort_sorted.
      - intros x y Hxy. apply Z.leb_gt in Hxy. apply Z.leb_le. lia.
      - intros x y z Hxy Hyz. apply Z.leb_le in Hxy, Hyz. apply Z.leb_le. lia. }
    assert (Hkeys' : Forall (fun ka => key ka.2 = Some ka.1)
                       (stable_sort (fun x y : Z * A => x.1 <=? y.1) keyed))
      by (by rewrite stable_sort_perm).
    induction Hs as [|ka kas Hs IH Hall]; [constructor|].
    apply Forall_cons in Hkeys' as [Hka Hkas]. rewrite fmap_cons.
    apply StronglySorted_cons. split; [|by apply IH].
    apply Forall_fmap, Forall_forall. intros kb Hkb. simpl.
    rewrite Forall_forall in Hall, Hkas. exists ka.1, kb.1.
    split; [done|]. split; [by apply Hkas|by apply Z.leb_le, Hall].
Qed.

Lemma StronglySorted_sublist {A} (R : A → A → Prop) (l1 l2 : list A) :
  l1 `sublist_of` l2 → StronglySorted R l2 → StronglySorted R l1.
Proof.
  induction 1 as [|x l1 l2 Hsub IH|x l1 l2 Hsub IH]; intros Hs; [done|..].
  - apply StronglySorted_cons in Hs as [Hx Hs]. apply StronglySorted_cons.
    split; [|by apply IH]. rewrite Forall_forall in Hx. apply Forall_forall.
    intros y Hy. apply Hx. by eapply sublist_submseteq, elem_of_submseteq in Hsub.
  - apply StronglySorted_cons in Hs as [_ Hs]. by apply IH.
Qed.

Lemma concat_filter_sublist {A} (P : list A → Prop) `{!∀ p, Decision (P p)}
    (ls : list (list A)) :
  concat (filter P ls) `sublist_of` concat ls.
Proof.
  induction ls as [|p ls IH]; [done|]. rewrite filter_cons. case_decide; simpl.
  - by apply sublist_app.
  - by apply sublist_inserts_l.
Qed.

(** X4.  The frames of the returned segments, read segment after segment,
    are in non-decreasing order of frame index whatever the order of the
    input, and they are frames of the input, none more often than the input
    has it. *)
Theorem X4_segments_in_frame_order (ms : list Moment.t) (segs : list (list Moment.t)) :
  Analysis._build_possession_strings ms = Ok segs →
  StronglySorted frame_le (concat segs) ∧ concat segs ⊆+ ms.
Proof.
  unfold Analysis._build_possession_strings. intros H.
  apply bind_ok_inv in H as (sorted & Hs & H). inversion H; subst; clear H.
  assert (Hsub : concat (filter (fun p => Analysis.not_none_string p = true)
                           (Analysis.possession_strings
                              (foldl Analysis.scan_step Analysis.scan_init sorted)))
                 `sublist_of` sorted).
  { etrans; [apply concat_filter_sublist|].
    pose proof (scan_frames sorted Analysis.scan_init) as Hfr. simpl in Hfr.
    pose proof (sublist_inserts_r
                  (Analysis.possession_buffer
                     (foldl Analysis.scan_step Analysis.scan_init sorted))
                  _ _ (reflexivity
                         (concat (Analysis.possession_strings
                                    (foldl Analysis.scan_step Analysis.scan_init sorted)))))
      as Hpre.
    by rewrite Hfr in Hpre. }
  split.
  - eapply StronglySorted_sublist; [exact Hsub|]. by apply (sorted_by_key_sorted _ ms).
  - rewrite <- (sorted_by_key_perm _ _ _ Hs). by apply sublist_submseteq.
Qed.

(** X4 at three frames given in the order 3, 1, 2. *)
Lemma X4_segments_in_frame_order_witness :
  StronglySorted frame_le
    (concat [ []; [frame_of 1 (Some 10) (Some "home team");
                   frame_of 2 (Some 11) (Some "home team")] ]).
Proof.
  apply (X4_segments_in_frame_order
           [frame_of 3 None None; frame_of 1 (Some 10) (Some "home team");
            frame_of 2 (Some 11) (Some "home team")]).
  vm_compute. reflexivity.
Defined.

(** ** get_possession_strings *)

(** Once the buffer holds a frame, the scan stores no empty segment. *)
Lemma scan_no_empty_segment (ms : list Moment.t) (st : Analysis.scan) :
  Forall (fun p => p ≠ []) (Analysis.possession_strings st) →
  Analysis.possession_buffer st ≠ [] →
  Forall (fun p => p ≠ [])
         (Analysis.possession_strings (foldl Analysis.scan_step st ms)).
Proof.
  revert st. induction ms as [|m ms IH]; intros st Hs Hb; [done|].
  rewrite scan_cons. apply IH; unfold Analysis.scan_step; case_decide; simpl; try done.
  - apply Forall_app. split; [done|]. by constructor.
  - by destruct (Analysis.possession_buffer st).
Qed.

(** The result holds the empty segment exactly when the first frame in
    frame order carries a group. *)
Lemma empty_segment_iff (ms : list Moment.t) (segs : list (list Moment.t)) :
  Analysis._build_possession_strings ms = Ok segs →
  ([] ∈ segs ↔ ∃ m rest, sorted_by_key Moment.frame ms = Ok (m :: rest) ∧ ¬ null_group m).
Proof.
  unfold Analysis._build_possession_strings. intros H.
  apply bind_ok_inv in H as (sorted & Hs & H). inversion H; subst; clear H.
  rewrite Hs. destruct sorted as [|m rest].
  - split; [|by intros (? & ? & ? & _)].
    cbn [foldl Analysis.scan_init Analysis.possession_strings].
    rewrite filter_nil. intros Hin. by apply not_elem_of_nil in Hin.
  - rewrite list_elem_of_filter. split.
    + intros [_ Hin]. exists m, rest. split; [done|]. intros Hnull.
      rewrite scan_cons, scan_step_same in Hin by (by rewrite Hnull).
      assert (Hne : Forall (fun p : list Moment.t => p ≠ [])
                      (Analysis.possession_strings
                         (foldl Analysis.scan_step
                            {| Analysis.possession_strings :=
                                 Analysis.possession_strings Analysis.scan_init;
                               Analysis.possession_buffer :=
                                 Analysis.possession_buffer Analysis.scan_init ++ [m];
                               Analysis.previous_possession := Moment.possession_group m |}
                            rest)))
        by (apply scan_no_empty_segment; [constructor | done]).
      rewrite Forall_forall in Hne. by apply (Hne [] Hin).
    + intros (m' & rest' & Heq & Hm). inversion Heq; subst m' rest'; clear Heq.
      split; [apply not_none_string_nil|].
      rewrite scan_cons, scan_step_change by (cbn; intros Hn; by apply Hm).
      destruct (scan_strings_prefix rest
                  {| Analysis.possession_strings :=
                       Analysis.possession_strings Analysis.scan_init
                       ++ [Analysis.possession_buffer Analysis.scan_init];
                     Analysis.possession_buffer := [m];
                     Analysis.previous_possession := Moment.possession_group m |})
        as [more ->].
      cbn [Analysis.possession_strings Analysis.possession_buffer Analysis.scan_init app].
      by left.
Qed.

Lemma strings_of_segments (n2i : dict (option string) (option Z))
    (i2n : dict (option Z) (option string)) (segs : list (list Moment.t)) :
  match comprehension (fun sop => StringOfPossession.__init__ sop n2i i2n) segs with
  | Ok sops =>
      map StringOfPossession.moments sops = segs
      ∧ Forall (fun s => ∃ m rest, StringOfPossession.moments s = m :: rest
                                   ∧ StringOfPossession.team s = Moment.possession_group m
                                   ∧ StringOfPossession.n2i s = n2i
                                   ∧ StringOfPossession.i2n s = i2n)
               sops
  | Raise e => e = IndexError ∧ [] ∈ segs
  end.
Proof.
  induction segs as [|p segs IH]; simpl; [by repeat constructor|].
  destruct p as [|m rest]; simpl; [split; [done | by left]|].
  destruct (comprehension _ segs) as [sops|e]; simpl.
  - destruct IH as [Hm Hall]. split; [by rewrite Hm|].
    constructor; [|done]. by exists m, rest.
  - destruct IH as [-> Hin]. split; [done | by right].
Qed.

(** X5.  [get_possession_strings] raises [IndexError] exactly when the
    first frame in frame order carries a possession group: the empty segment
    stored at that frame reaches [StringOfPossession.__init__], which reads
    its first element.  When it returns, every possession string has a
    non-null team, is not empty, and all its frames carry its team. *)
Theorem X5_possession_strings_index_error (self : Analysis.t) :
  let ms := Match.moments (Analysis.match_ self) in
  (Analysis.get_possession_strings self = Raise IndexError
   ↔ ∃ m rest, sorted_by_key Moment.frame ms = Ok (m :: rest) ∧ ¬ null_group m)
  ∧ (∀ sops, Analysis.get_possession_strings self = Ok sops →
       Forall (fun s => StringOfPossession.team s ≠ None
                        ∧ StringOfPossession.moments s ≠ []
                        ∧ Forall (fun m => Moment.possession_group m
                                           = StringOfPossession.team s)
                                 (StringOfPossession.moments s)) sops).
Proof.
  intros ms. unfold Analysis.get_possession_strings. fold ms.
  destruct (Analysis._build_possession_strings ms) as [segs|e] eqn:Hb;
    cbn [mbind result_bind].
  - pose proof (strings_of_segments (Match.name_to_id (Analysis.match_ self))
                  (Match.id_to_name (Analysis.match_ self)) segs) as Hstr.
    pose proof (returned_segments_one_group ms segs Hb) as Hsingle.
    rewrite <- (empty_segment_iff ms segs Hb).
    destruct (comprehension _ segs) as [sops|e].
    + destruct Hstr as [Hmo Hall]. rewrite Forall_forall in Hall. split.
      * split; [done|]. intros Hin. rewrite <- Hmo in Hin.
        apply list_elem_of_fmap in Hin as (s & Hs & Hin).
        destruct (Hall s Hin) as (m & rest & Hms & _). congruence.
      * intros sops' [= <-]. rewrite <- Hmo in Hsingle. rewrite Forall_fmap in Hsingle.
        rewrite Forall_forall in Hsingle. apply Forall_forall. intros s Hin.
        destruct (Hall s Hin) as (m & rest & Hms & Hteam & _).
        destruct (Hsingle s Hin) as [[g Hg] Hnn]. cbn [compose] in Hg, Hnn.
        rewrite Hms in Hg, Hnn |- *. rewrite Hteam.
        assert (Hm : Moment.possession_group m = g) by (by inversion Hg).
        split; [|split; [done|]].
        -- assert (m :: rest ≠ []) as Hne by done. apply Hnn in Hne. by inversion Hne.
        -- by rewrite Hm.
    + destruct Hstr as [-> Hin]. split; [done|]. intros sops [=].
  - split; [|done]. split.
    + intros [= ->]. unfold Analysis._build_possession_strings in Hb.
      apply bind_raise_inv in Hb as [Hb|(? & _ & Hb)]; [|done].
      by apply sorted_by_key_raises in Hb as [? _].
    + intros (m & rest & Hs & _). unfold Analysis._build_possession_strings in Hb.
      by rewrite Hs in Hb.
Qed.

(** X5 at four frames with the groups [null, home, home, null]: one
    possession string comes back, of the home team. *)
Lemma X5_possession_strings_index_error_witness :
  ∃ self sops,
    Analysis.__init__ (metadata one_referee valid_roster)
      [frame_json 1 None None; frame_json 2 (Some 10) (Some "home team");
       frame_json 3 (Some 11) (Some "home team"); frame_json 4 None None] = Ok self
    ∧ Analysis.get_possession_strings self = Ok sops
    ∧ Forall (fun s => StringOfPossession.team s ≠ None
                       ∧ StringOfPossession.moments s ≠ []
                       ∧ Forall (fun m => Moment.possession_group m
                                          = StringOfPossession.team s)
                                (StringOfPossession.moments s)) sops.
Proof.
  eexists; eexists. split; [vm_compute; reflexivity|].
  lazymatch goal with
  | |- Analysis.get_possession_strings ?s = _ ∧ _ =>
      pose proof (proj2 (X5_possession_strings_index_error s)) as H
  end.
  split; [vm_compute; reflexivity|]. apply H. vm_compute. reflexivity.
Defined.

(** ** Team possession share: what the result holds *)

Lemma filter_group_recognized (g : string) (ms : list Moment.t) :
  g = "home team" ∨ g = "away team" →
  filter (fun m => Moment.possession_group m = Some g) (filter recognized ms)
  = filter (fun m => Moment.possession_group m = Some g) ms.
Proof.
  intros Hg. rewrite list_filter_filter. apply list_filter_iff. intros m.
  unfold recognized. split; [by intros [? _]|]. intros Hm. split; [done|].
  destruct Hg as [-> | ->]; auto.
Qed.

(** X6.  The team shares depend on the recognized frames only, and not on
    their order: two frame sequences whose frames labelled "home team" or
    "away team" are the same up to order give the same result, the same
    exception included. *)
Theorem X6_team_stats_recognized_only (self : Analysis.t) (ms' : list Moment.t) :
  filter recognized ms' ≡ₚ filter recognized (Match.moments (Analysis.match_ self)) →
  Analysis.get_team_possession_stats (with_moments self ms')
  = Analysis.get_team_possession_stats self.
Proof.
  intros Hperm. unfold Analysis.get_team_possession_stats.
  cbn [with_moments Analysis.match_ Match.moments Match.home_team_name
       Match.away_team_name].
  rewrite !team_counts_spec. cbn [fst snd].
  set (ms := Match.moments (Analysis.match_ self)) in *.
  assert (Hlen : ∀ g, g = "home team" ∨ g = "away team" →
            length (filter (fun m => Moment.possession_group m = Some g) ms')
            = length (filter (fun m => Moment.possession_group m = Some g) ms)).
  { intros g Hg. rewrite <- (filter_group_recognized g ms') by done.
    rewrite <- (filter_group_recognized g ms) by done. by rewrite Hperm. }
  by rewrite (Hlen "home team"), (Hlen "away team") by auto.
Qed.

(** X6 at the frames [home, null, away] against [away, home]. *)
Lemma X6_team_stats_recognized_only_witness :
  ∃ self,
    Analysis.__init__ (metadata one_referee valid_roster)
      [frame_json 1 (Some 10) (Some "home team"); frame_json 2 None None;
       frame_json 3 (Some 20) (Some "away team")] = Ok self
    ∧ Analysis.get_team_possession_stats
        (with_moments self [frame_of 3 (Some 20) (Some "away team");
                            frame_of 1 (Some 10) (Some "home team")])
      = Analysis.get_team_possession_stats self.
Proof.
  eexists. split; [vm_compute; reflexivity|].
  apply X6_team_stats_recognized_only.
  vm_compute. apply perm_swap.
Defined.

Lemma team_stats_cases (self : Analysis.t) :
  let ms := Match.moments (Analysis.match_ self) in
  let h := frames_of_group "home team" ms in
  let a := frames_of_group "away team" ms in
  let home := Match.home_team_name (Analysis.match_ self) in
  let away := Match.away_team_name (Analysis.match_ self) in
  let share (k : nat) := np_round (quotient k (h + a)) 3 in
  Analysis.get_team_possession_stats self
  = if decide (h + a = 0)%nat then Raise ZeroDivisionError
    else Ok (if decide (home = away) then [(away, share a)]
             else [(home, share h); (away, share a)]).
Proof.
  intros ms h a home away share. unfold Analysis.get_team_possession_stats.
  rewrite team_counts_spec. cbn [fst snd]. fold ms home away.
  fold (frames_of_group "home team" ms) (frames_of_group "away team" ms). fold h a.
  rewrite !Z.add_0_l, <- Nat2Z.inj_add.
  destruct (decide (h + a = 0)%nat) as [Hz|Hnz].
  - rewrite Hz. change (Z.of_nat 0) with 0. by rewrite true_div_zero.
  - rewrite !true_div_count by lia. cbn [mbind result_bind].
    unfold dict_of_items. cbn [foldl dict_setitem fst snd].
    fold (share h) (share a). by destruct (decide (home = away)) as [->|].
Qed.

(** X7.  With at least one frame labelled "home team" or "away team", the
    team shares are returned: the home entry, then the away entry, each the
    binary64 quotient of the team's frame count by the count of both,
    rounded to three decimals as [np.round] does in binary64.  When the
    two teams go by the same name, absent names included, the result has
    that one key and holds the away share only. *)
Theorem X7_team_stats_entries (self : Analysis.t) :
  let ms := Match.moments (Analysis.match_ self) in
  let h := frames_of_group "home team" ms in
  let a := frames_of_group "away team" ms in
  let home := Match.home_team_name (Analysis.match_ self) in
  let away := Match.away_team_name (Analysis.match_ self) in
  let share (k : nat) := np_round (quotient k (h + a)) 3 in
  (h + a ≠ 0)%nat →
  Analysis.get_team_possession_stats self
  = Ok (if decide (home = away) then [(away, share a)]
        else [(home, share h); (away, share a)]).
Proof.
  intros ms h a home away share Hnz. rewrite team_stats_cases.
  fold ms h a. by rewrite decide_False.
Qed.

(** X7 at 203 frames of the home team and 197 of the away team: the
    quotients are 0.5075 and 0.4925 and the shares the binary64 numbers
    0.507 and 0.492. *)
Lemma X7_team_stats_entries_witness :
  ∃ self,
    Analysis.__init__ (metadata one_referee valid_roster)
      (labelled_frames 203 10 "home team" ++ labelled_frames 197 20 "away team") = Ok self
    ∧ Analysis.get_team_possession_stats self
      = Ok [(Some "HOM", S754_finite false 4566650022153683 (-53));
            (Some "AWY", S754_finite false 8863084066665136 (-54))].
Proof.
  eexists. split; [vm_compute; reflexivity|].
  lazymatch goal with
  | |- Analysis.get_team_possession_stats ?s = _ =>
      rewrite (X7_team_stats_entries s) by (vm_compute; discriminate)
  end.
  vm_compute. reflexivity.
Defined.

(** ** Team possession share: the range of the values *)

Lemma float_leb_le (x : spec_float) (n d : Z) : float_leb x n d = true → float_le x n d.
Proof.
  destruct x as [[]|[]| |[] m e]; try done. cbn [float_leb float_le].
  intros [H1 H2]%andb_true_iff. split; [by apply Z.leb_le|by apply Z.leb_le].
Qed.

Section Scale.
Variables (c : Z) (mf : positive) (ef : Z).
Hypothesis Hc : 0 < c ≤ 1000.
Hypothesis Hmf : Z.pos mf = c * 2 ^ (- ef).
Hypothesis Hef : ef ≤ -43.

(** A number of at most [1 + 2^-52], scaled by [c] and rounded to an
    integer, gives an integer of at most [c]. *)
Lemma scaled_rint (q : spec_float) :
  float_le q (2 ^ 52 + 1) (2 ^ 52) →
  rint (SFmul prec emax q (S754_finite false mf ef)) = S754_zero false
  ∨ ∃ p, Z.pos p ≤ c
         ∧ rint (SFmul prec emax q (S754_finite false mf ef))
           = binary_round prec emax false p 0.
Proof.
  destruct q as [[]|[]| |[] mq eq]; try done; [by left|].
  intros [Heq Hq]. cbn [SFmul xorb].
  set (m := Z.pos (mq * mf)). set (e := eq + ef).
  assert (Hm0 : 0 ≤ m) by (subst m; lia).
  assert (HE : 0 < 2 ^ (- e)) by (apply Z.pow_pos_nonneg; lia).
  assert (Hm52 : m * 2 ^ 52 ≤ (2 ^ 52 + 1) * c * 2 ^ (- e)).
  { subst m e. rewrite Pos2Z.inj_mul, Hmf.
    replace (- (eq + ef)) with (- eq + - ef) by lia. rewrite Z.pow_add_r by lia.
    assert (0 < 2 ^ (- ef)) by (apply Z.pow_pos_nonneg; lia). nia. }
  assert (HmD : m < 2 ^ (10 - e)).
  { replace (10 - e) with (10 + - e) by lia. rewrite Z.pow_add_r by lia.
    change (2 ^ 10) with 1024. change (2 ^ 52) with 4503599627370496 in Hm52. nia. }
  destruct (binary_round_aux_value m e loc_Exact Hm0)
    as (m2 & e1 & e2 & He1 & He12 & He2 & Hm2 & Hval & ->).
  assert (Hd : Zdigits2 m ≤ 10 - e) by (apply Zdigits2_bound; lia).
  assert (He1le : e1 ≤ -43) by (rewrite He1; unfold fexp, emin, prec, emax; lia).
  assert (He2le : e2 ≤ -42).
  { specialize (He2 10). unfold fexp, emin, prec, emax in He2. lia. }
  destruct m2 as [|mP|mP]; [by left| |lia].
  assert (Hfin : (e2 <=? emax - prec) = true) by (apply Z.leb_le; unfold emax, prec; lia).
  rewrite Hfin. cbn [rint].
  assert (Hneg : (0 <=? e2) = false) by (apply Z.leb_gt; lia). rewrite Hneg.
  set (T := 2 ^ (- e2)). assert (HT : 0 < T) by (apply Z.pow_pos_nonneg; lia).
  assert (Hhalf : 2 * Z.pos mP < (2 * c + 1) * T).
  { set (A := 2 ^ (e2 - e)) in *. set (S := 2 ^ (e1 - e)) in *. set (E := 2 ^ (- e)) in *.
    assert (HA : 0 < A) by (apply Z.pow_pos_nonneg; lia).
    assert (HAT : A * T = E).
    { subst A T E. rewrite <- Z.pow_add_r by lia. f_equal. lia. }
    assert (HS : S * 2 ^ 52 ≤ 2 ^ 9 * E).
    { subst S E. rewrite <- !Z.pow_add_r by lia. apply Z.pow_le_mono_r; lia. }
    change (2 ^ 52) with 4503599627370496 in *. change (2 ^ 9) with 512 in *.
    apply (Z.mul_lt_mono_pos_r (A * 4503599627370496)); [lia|]. nia. }
  pose proof (Z.div_mod (Z.pos mP) T ltac:(lia)) as Hdm.
  pose proof (Z.mod_pos_bound (Z.pos mP) T HT) as Hr.
  assert (Hq0 : 0 ≤ Z.pos mP / T) by (apply Z.div_pos; lia).
  set (qq := Z.pos mP / T) in *. set (r := Z.pos mP mod T) in *.
  assert (Hn : 0 ≤ match 2 * r ?= T with
                   | Eq => if Z.even qq then qq else qq + 1
                   | Lt => qq
                   | Gt => qq + 1
                   end ≤ c).
  { destruct (Z.compare_spec (2 * r) T); [destruct (Z.even qq)|..]; nia. }
  destruct (match 2 * r ?= T with
            | Eq => if Z.even qq then qq else qq + 1
            | Lt => qq
            | Gt => qq + 1
            end) as [|p|p]; [by left| |lia].
  right. exists p. split; [lia|done].
Qed.

Hypothesis Htable :
  ∀ p, Z.pos p ≤ c →
       float_le (SFdiv prec emax (binary_round prec emax false p 0)
                       (S754_finite false mf ef)) 1 1.

Lemma scaled_round_unit (q : spec_float) :
  float_le q (2 ^ 52 + 1) (2 ^ 52) →
  float_le (SFdiv prec emax (rint (SFmul prec emax q (S754_finite false mf ef)))
                  (S754_finite false mf ef)) 1 1.
Proof.
  intros Hq. destruct (scaled_rint q Hq) as [-> | (p & Hp & ->)]; [done|].
  by apply Htable.
Qed.
End Scale.

Lemma table_sound (c : nat) (f : spec_float) :
  forallb (fun k => float_leb (SFdiv prec emax
                                 (binary_round prec emax false (Pos.of_nat k) 0) f) 1 1)
          (seq 1 c) = true →
  ∀ p, Z.pos p ≤ Z.of_nat c →
       float_le (SFdiv prec emax (binary_round prec emax false p 0) f) 1 1.
Proof.
  intros H p Hp. rewrite forallb_forall in H. apply float_leb_le.
  rewrite <- (Pos2Nat.id p). apply H. apply in_seq. lia.
Qed.

(** Rounding a number of at most [1 + 2^-52] to two or three decimals gives
    a number of at most 1. *)
Lemma np_round_unit (q : spec_float) (d : Z) :
  d = 2 ∨ d = 3 → float_le q (2 ^ 52 + 1) (2 ^ 52) → float_le (np_round q d) 1 1.
Proof.
  intros [-> | ->] Hq; unfold np_round; cbn [Z.eqb Z.ltb Z.compare].
  - change (binary_normalize prec emax (10 ^ Z.abs 2) 0 false)
      with (S754_finite false 7036874417766400 (-46)).
    apply (scaled_round_unit 100); [lia|reflexivity|lia| |done].
    apply (table_sound 100). vm_compute. reflexivity.
  - change (binary_normalize prec emax (10 ^ Z.abs 3) 0 false)
      with (S754_finite false 8796093022208000 (-43)).
    apply (scaled_round_unit 1000); [lia|reflexivity|lia| |done].
    apply (table_sound 1000). vm_compute. reflexivity.
Qed.

(** X8.  Every share that [get_team_possession_stats] returns lies between
    0 and 1: it is [+0.0] or a positive binary64 number of value at most 1.
    The values are fractions of the recognized frames, not percentages. *)
Theorem X8_team_shares_bounded (self : Analysis.t)
    (shares : dict (option string) spec_float) (n : option string) (q : spec_float) :
  Analysis.get_team_possession_stats self = Ok shares →
  dict_get shares n = Some q →
  float_le q 1 1.
Proof.
  rewrite team_stats_cases. case_decide as Hz; [done|]. intros [= <-] Hget.
  set (h := frames_of_group "home team" (Match.moments (Analysis.match_ self))) in *.
  set (a := frames_of_group "away team" (Match.moments (Analysis.match_ self))) in *.
  assert (Hq : ∃ k, (k ≤ h + a)%nat ∧ q = np_round (quotient k (h + a)) 3).
  { case_decide; cbn [dict_get] in Hget; repeat case_decide; simplify_eq;
      eexists; (split; [|reflexivity]); lia. }
  destruct Hq as (k & Hk & ->). apply np_round_unit; [by right|].
  by apply quotient_bound.
Qed.

(** X8 at the home share of 203 home frames and 197 away frames, the
    binary64 number 0.507. *)
Lemma X8_team_shares_bounded_witness :
  ∃ self shares,
    Analysis.__init__ (metadata one_referee valid_roster)
      (labelled_frames 203 10 "home team" ++ labelled_frames 197 20 "away team") = Ok self
    ∧ Analysis.get_team_possession_stats self = Ok shares
    ∧ dict_get shares (Some "HOM") = Some (S754_finite false 4566650022153683 (-53))
    ∧ float_le (S754_finite false 4566650022153683 (-53)) 1 1.
Proof.
  do 2 eexists. split; [vm_compute; reflexivity|].
  lazymatch goal with
  | |- Analysis.get_team_possession_stats ?s = _ ∧ _ =>
      pose proof (X8_team_shares_bounded s) as H
  end.
  split; [vm_compute; reflexivity|]. split; [vm_compute; reflexivity|].
  eapply (H _ (Some "HOM")); vm_compute; reflexivity.
Defined.

(** ** Player possession share: what the result holds *)

Section CounterKeys.
Context {K : Type} `{EqDecision K}.
Implicit Types (c : dict K Z) (l : list K) (k : K).

Lemma counter_foldl_keys l c k :
  k ∈ dict_keys (foldl (fun c k => dict_setitem c k (default 0 (dict_get c k) + 1)) c l)
  ↔ k ∈ l ∨ k ∈ dict_keys c.
Proof.
  revert c. induction l as [|k0 l IH]; intros c; cbn [foldl].
  - rewrite elem_of_nil. tauto.
  - rewrite IH, dict_keys_setitem, elem_of_cons. tauto.
Qed.

Lemma counter_foldl_NoDup l c :
  NoDup (dict_keys c) →
  NoDup (dict_keys (foldl (fun c k => dict_setitem c k (default 0 (dict_get c k) + 1)) c l)).
Proof.
  revert c. induction l as [|k0 l IH]; intros c Hnd; cbn [foldl]; [done|].
  by apply IH, dict_keys_setitem_NoDup.
Qed.

Lemma Counter_keys l k : k ∈ dict_keys (Counter_of_list l) ↔ k ∈ l.
Proof.
  unfold Counter_of_list. rewrite counter_foldl_keys. simpl. rewrite elem_of_nil. tauto.
Qed.

Lemma Counter_NoDup l : NoDup (dict_keys (Counter_of_list l)).
Proof. apply counter_foldl_NoDup. constructor. Qed.
End CounterKeys.

(** Items with pairwise different keys make the dict that lists them. *)
Lemma dict_of_items_id {K V} `{EqDecision K} (items : list (K * V)) :
  NoDup items.*1 → dict_of_items items = items.
Proof.
  unfold dict_of_items.
  assert (H : ∀ d : dict K V, NoDup (d.*1 ++ items.*1) →
            foldl (fun d kv => dict_setitem d kv.1 kv.2) d items = d ++ items).
  { induction items as [|[k v] items IH]; intros d Hnd; cbn [foldl].
    - by rewrite app_nil_r.
    - assert (Hset : dict_setitem d k v = d ++ [(k, v)]).
      { assert (Hk : k ∉ d.*1).
        { apply NoDup_app in Hnd as (_ & Hd & _). intros Hin. apply (Hd k Hin). by left. }
        clear -Hk. induction d as [|[k' v'] d IHd]; [done|]. simpl.
        rewrite fmap_cons, not_elem_of_cons in Hk. destruct Hk as [Hne Hk].
        rewrite decide_False by done. by rewrite IHd. }
      cbn [fst snd]. rewrite Hset, IH; [by rewrite <- app_assoc|].
      rewrite fmap_app, <- app_assoc. exact Hnd. }
  intros Hnd. by rewrite H.
Qed.

Lemma StronglySorted_fmap_elem {A B} (R : A → A → Prop) (R' : B → B → Prop) (f : A → B)
    (l : list A) :
  (∀ x y, x ∈ l → y ∈ l → R x y → R' (f x) (f y)) →
  StronglySorted R l → StronglySorted R' (map f l).
Proof.
  intros Hf Hs. induction Hs as [|x l Hs IH Hx]; [constructor|].
  cbn [map]. apply StronglySorted_cons. split.
  - apply Forall_fmap, Forall_forall. intros y Hy. rewrite Forall_forall in Hx.
    apply Hf; [by left | by right | by apply Hx].
  - apply IH. intros y z Hy Hz. apply Hf; by right.
Qed.

Lemma most_common_perm {K} (c : dict K Z) : most_common c ≡ₚ c.
Proof. apply stable_sort_perm. Qed.

Lemma most_common_sorted {K} (c : dict K Z) :
  StronglySorted (fun a b => b.2 ≤ a.2) (most_common c).
Proof.
  unfold most_common.
  assert (Hs : StronglySorted (fun a b : K * Z => (b.2 <=? a.2) = true)
                 (stable_sort (fun a b : K * Z => b.2 <=? a.2) c)).
  { apply stable_sort_sorted.
    - intros x y Hxy. apply Z.leb_gt in Hxy. apply Z.leb_le. lia.
    - intros x y z Hxy Hyz. apply Z.leb_le in Hxy, Hyz. apply Z.leb_le. lia. }
  eapply StronglySorted_fmap_elem with (f := id) in Hs.
  - rewrite map_id in Hs. exact Hs.
  - intros x y _ _ Hxy. by apply Z.leb_le in Hxy.
Qed.

Lemma names_count (self : Analysis.t) (n : option string) :
  length (filter (fun n' => n' = n) (Analysis.possessor_names self))
  = frames_held self n (Match.moments (Analysis.match_ self)).
Proof.
  rewrite possessor_names_spec, filter_fmap_length. unfold frames_held.
  rewrite list_filter_filter. f_equal. apply list_filter_iff. intros m. tauto.
Qed.

Lemma names_length (self : Analysis.t) :
  length (Analysis.possessor_names self)
  = length (filter holder_counted (Match.moments (Analysis.match_ self))).
Proof. by rewrite possessor_names_spec, length_map. Qed.

Lemma player_stats_items (self : Analysis.t) :
  let c := Counter_of_list (Analysis.possessor_names self) in
  Analysis.get_player_possession_stats self
  = Ok (dict_of_items (map (fun nc : option string * Z => (nc.1, player_share self nc.1))
                           (most_common c))).
Proof.
  intros c. unfold Analysis.get_player_possession_stats. fold c.
  assert (Hc : ∀ items : list (option string * Z),
             items = [] ∨ Analysis.possessor_names self ≠ [] →
             comprehension
               (fun nc : option string * Z =>
                  q ← true_div (default 0 (dict_get c nc.1)) (sum_values c);
                  Ok (nc.1, np_round q 2)) items
             = Ok (map (fun nc : option string * Z => (nc.1, player_share self nc.1)) items)).
  { intros items [->|Hne]; [done|].
    induction items as [|nc items IH]; [done|]. cbn [comprehension map].
    subst c. rewrite true_div_counter by done. rewrite names_count, names_length.
    cbn [mbind result_bind]. fold (player_share self nc.1). by rewrite IH. }
  rewrite Hc; [done|].
  destruct (Analysis.possessor_names self) as [|n l] eqn:Hl; [by left | by right].
Qed.

Lemma player_stats_list (self : Analysis.t) :
  let c := Counter_of_list (Analysis.possessor_names self) in
  Analysis.get_player_possession_stats self
  = Ok (map (fun nc : option string * Z => (nc.1, player_share self nc.1)) (most_common c)).
Proof.
  intros c. rewrite player_stats_items. fold c. f_equal. apply dict_of_items_id.
  rewrite <- list_fmap_compose.
  change (fst ∘ _) with (fst : option string * Z → option string).
  rewrite most_common_perm. apply Counter_NoDup.
Qed.

(** X9.  [get_player_possession_stats] returns for every match.  The keys
    of the result are pairwise different; a name is a key exactly when a
    counted frame resolves to it, the name null of the frames whose holder
    the lookup does not know included; and its value is the binary64
    quotient of the number of those frames by the number of counted frames,
    rounded to two decimals as [np.round] does in binary64. *)
Theorem X9_player_stats_shares (self : Analysis.t) :
  ∃ shares,
    Analysis.get_player_possession_stats self = Ok shares
    ∧ NoDup (dict_keys shares)
    ∧ (∀ n, dict_get shares n
            = if decide (frames_held self n (Match.moments (Analysis.match_ self)) = 0)%nat
              then None else Some (player_share self n)).
Proof.
  eexists. split; [apply player_stats_list|].
  set (c := Counter_of_list (Analysis.possessor_names self)).
  set (g := fun nc : option string * Z => (nc.1, player_share self nc.1)).
  assert (Hkeys : dict_keys (map g (most_common c)) = (most_common c).*1).
  { unfold dict_keys. by rewrite <- list_fmap_compose. }
  assert (Hnd : NoDup (dict_keys (map g (most_common c)))).
  { rewrite Hkeys, most_common_perm. apply Counter_NoDup. }
  split; [done|]. intros n.
  assert (Hin : n ∈ dict_keys (map g (most_common c))
                ↔ frames_held self n (Match.moments (Analysis.match_ self)) ≠ 0%nat).
  { rewrite Hkeys, most_common_perm. fold (dict_keys c). subst c.
    rewrite Counter_keys, <- names_count, length_filter_zero.
    rewrite Forall_forall. split.
    - intros Hn Hall. by apply (Hall n Hn).
    - intros Hn. destruct (decide (n ∈ Analysis.possessor_names self)) as [|Hnin]; [done|].
      destruct Hn. intros n' Hn' ->. done. }
  case_decide as Hz.
  - apply dict_get_None. rewrite Hin. lia.
  - apply dict_get_elem_of; [done|]. apply Hin in Hz.
    rewrite Hkeys in Hz. apply list_elem_of_fmap in Hz as ([n' cnt] & -> & Hnc).
    apply list_elem_of_fmap. by exists (n', cnt).
Qed.

Lemma Counter_item (self : Analysis.t) (nc : option string * Z) :
  nc ∈ Counter_of_list (Analysis.possessor_names self) →
  nc.2 = Z.of_nat (frames_held self nc.1 (Match.moments (Analysis.match_ self))).
Proof.
  destruct nc as [n cnt]. intros Hin. cbn [fst snd].
  apply dict_get_elem_of in Hin; [|apply Counter_NoDup].
  rewrite <- names_count, <- Counter_get, Hin. done.
Qed.

(** X10.  The names of the player shares are listed by the number of
    counted frames they hold, from the largest to the smallest: along the
    keys of the result no name holds more counted frames than one before
    it. *)
Theorem X10_player_stats_order (self : Analysis.t)
    (shares : dict (option string) spec_float) :
  Analysis.get_player_possession_stats self = Ok shares →
  StronglySorted
    (fun n1 n2 => (frames_held self n2 (Match.moments (Analysis.match_ self))
                   ≤ frames_held self n1 (Match.moments (Analysis.match_ self)))%nat)
    (dict_keys shares).
Proof.
  rewrite player_stats_list. intros [= <-].
  unfold dict_keys. rewrite <- list_fmap_compose.
  eapply StronglySorted_fmap_elem; [|apply most_common_sorted].
  intros x y Hx Hy Hxy. cbn beta in Hxy. cbn [compose fst].
  rewrite most_common_perm in Hx, Hy.
  apply Counter_item in Hx, Hy. rewrite Hx, Hy in Hxy. lia.
Qed.

(** X10 at 40 frames, 17 held by player 10 and 23 by player 20: Vieira,
    with 23 frames and the share 0.57, comes before Keane, with 17 frames
    and the share 0.42. *)
Lemma X10_player_stats_order_witness :
  ∃ self shares,
    Analysis.__init__ (metadata one_referee valid_roster)
      (labelled_frames 17 10 "home team" ++ labelled_frames 23 20 "away team") = Ok self
    ∧ Analysis.get_player_possession_stats self = Ok shares
    ∧ shares = [(Some "Vieira", S754_finite false 5134103575202365 (-53));
                (Some "Keane", S754_finite false 7566047373982433 (-54))]
    ∧ StronglySorted
        (fun n1 n2 => (frames_held self n2 (Match.moments (Analysis.match_ self))
                       ≤ frames_held self n1 (Match.moments (Analysis.match_ self)))%nat)
        (dict_keys shares).
Proof.
  do 2 eexists. split; [vm_compute; reflexivity|].
  lazymatch goal with
  | |- Analysis.get_player_possession_stats ?s = _ ∧ _ =>
      pose proof (X10_player_stats_order s) as H
  end.
  split; [vm_compute; reflexivity|]. split; [reflexivity|].
  apply H. vm_compute. reflexivity.
Defined.

(** ** Construction: which documents load *)

Lemma Location_init_ok (lj : LocationJson.t) (period : option Z) :
  ¬ (period = Some 2 ∧ LocationJson.y lj = None) →
  ∃ loc, Location.__init__ lj period = Ok loc ∧ Location.location_json loc = lj.
Proof.
  intros Hok. destruct (Location.__init__ lj period) as [loc|e] eqn:Hl.
  - exists loc. split; [done|]. unfold Location.__init__ in Hl.
    apply bind_ok_inv in Hl as (ny & _ & Hl). by inversion Hl.
  - apply Location_init_raises in Hl as (_ & Hy & Hp). by destruct Hok.
Qed.

Lemma locations_raise (period : option Z) (ls : list LocationJson.t) :
  period = Some 2 → Exists (fun l => LocationJson.y l = None) ls →
  comprehension (fun l => Location.__init__ l period) ls = Raise TypeError.
Proof.
  intros -> Hex. induction Hex as [l ls Hy|l ls Hex IH]; cbn [comprehension].
  - unfold Location.__init__. by rewrite Hy.
  - destruct (Location.__init__ l (Some 2)) as [loc|e] eqn:Hl; cbn [mbind result_bind].
    + by rewrite IH.
    + by apply Location_init_raises in Hl as (-> & _).
Qed.

Lemma locations_ok (period : option Z) (ls : list LocationJson.t) :
  ¬ (period = Some 2 ∧ Exists (fun l => LocationJson.y l = None) ls) →
  ∃ locs, comprehension (fun l => Location.__init__ l period) ls = Ok locs
          ∧ map Location.location_json locs = ls.
Proof.
  intros Hok. induction ls as [|l ls IH]; cbn [comprehension]; [by exists []|].
  destruct (Location_init_ok l period) as (loc & -> & Hloc).
  { intros [Hp Hy]. apply Hok. split; [done | by left]. }
  destruct IH as (locs & -> & Hlocs).
  { intros [Hp Hex]. apply Hok. split; [done | by right]. }
  exists (loc :: locs). split; [done|]. cbn [map]. by rewrite Hloc, Hlocs.
Qed.

Lemma Moment_init_cases (mj : MomentJson.t) :
  (unflippable mj → Moment.__init__ mj = Raise TypeError)
  ∧ (¬ unflippable mj → MomentJson.possession mj = None →
     Moment.__init__ mj = Raise AttributeError)
  ∧ (¬ unflippable mj → ∀ p, MomentJson.possession mj = Some p →
     ∃ m, Moment.__init__ mj = Ok m
          ∧ Moment.moment_json m = mj
          ∧ Moment.frame m = MomentJson.frame mj
          ∧ Moment.time m = MomentJson.time mj
          ∧ Moment.half m = MomentJson.period mj
          ∧ map Location.location_json (Moment.locations m)
            = default [] (MomentJson.data mj)
          ∧ Moment.possession_id m = PossessionJson.trackable_object p
          ∧ Moment.possession_group m = PossessionJson.group p).
Proof.
  unfold unflippable, Moment.__init__, Moment._get_possession. split; [|split].
  - intros [Hp Hex]. by rewrite (locations_raise _ _ Hp Hex).
  - intros Hok Hposs. destruct (locations_ok _ _ Hok) as (locs & -> & _).
    by rewrite Hposs.
  - intros Hok p Hposs. destruct (locations_ok _ _ Hok) as (locs & -> & Hlocs).
    rewrite Hposs. cbn [mbind result_bind fst snd]. eexists. split; [done|].
    by cbn.
Qed.

(** X11.  [Moment.__init__] has three outcomes.  A record of period 2 with
    a location without y raises [TypeError]; otherwise a record without the
    possession field raises [AttributeError]; otherwise the frame is built,
    with the record, its frame index, time and period stored as they stand,
    one location per location record, in order, and the holder and the
    group of the possession field. *)
Theorem X11_moment_init_outcome (mj : MomentJson.t) :
  (unflippable mj → Moment.__init__ mj = Raise TypeError)
  ∧ (¬ unflippable mj → MomentJson.possession mj = None →
     Moment.__init__ mj = Raise AttributeError)
  ∧ (¬ unflippable mj → ∀ p, MomentJson.possession mj = Some p →
     ∃ m, Moment.__init__ mj = Ok m
          ∧ Moment.moment_json m = mj
          ∧ Moment.frame m = MomentJson.frame mj
          ∧ Moment.time m = MomentJson.time mj
          ∧ Moment.half m = MomentJson.period mj
          ∧ map Location.location_json (Moment.locations m)
            = default [] (MomentJson.data mj)
          ∧ Moment.possession_id m = PossessionJson.trackable_object p
          ∧ Moment.possession_group m = PossessionJson.group p).
Proof. exact (Moment_init_cases mj). Qed.

(** X11 at a period-2 record with a location without y, at a record without
    possession, and at a well-formed record. *)
Lemma X11_moment_init_outcome_witness :
  Moment.__init__
    {| MomentJson.frame := Some 1; MomentJson.time := None; MomentJson.period := Some 2;
       MomentJson.data :=
         Some [ {| LocationJson.x := Some (PyInt 3); LocationJson.y := None;
                   LocationJson.z := None; LocationJson.trackable_object := Some 10;
                   LocationJson.track_id := None |} ];
       MomentJson.possession := None |} = Raise TypeError
  ∧ Moment.__init__
      {| MomentJson.frame := Some 1; MomentJson.time := None; MomentJson.period := Some 1;
         MomentJson.data := None; MomentJson.possession := None |} = Raise AttributeError
  ∧ ∃ m, Moment.__init__ (frame_json 1 (Some 10) (Some "home team")) = Ok m
         ∧ Moment.possession_group m = Some "home team".
Proof.
  split; [|split].
  - apply (proj1 (X11_moment_init_outcome _)). split; [reflexivity | by left].
  - apply (proj1 (proj2 (X11_moment_init_outcome _))); [|reflexivity].
    intros [Hp _]. discriminate Hp.
  - destruct (proj2 (proj2 (X11_moment_init_outcome
                              (frame_json 1 (Some 10) (Some "home team"))))
                (fun H => match proj1 H with eq_refl => I end : False)
                _ eq_refl)
      as (m & Hm & _ & _ & _ & _ & _ & _ & Hg).
    exists m. split; [exact Hm | exact Hg].
Defined.

Lemma comprehension_Forall2 {A B} (f : A → result B) (l : list A) (bs : list B) :
  comprehension f l = Ok bs ↔ Forall2 (fun a b => f a = Ok b) l bs.
Proof.
  revert bs. induction l as [|a l IH]; intros bs; cbn [comprehension].
  - split; [intros [= <-]; constructor | by inversion 1].
  - split.
    + intros H. apply bind_ok_inv in H as (b & Hb & H).
      apply bind_ok_inv in H as (bs' & Hbs' & H). inversion H; subst; clear H.
      constructor; [done | by apply IH].
    + inversion 1 as [|?? b bs' Hb Hbs']; subst. rewrite Hb. cbn [mbind result_bind].
      apply IH in Hbs'. by rewrite Hbs'.
Qed.

Lemma comprehension_ok {A B} (f : A → result B) (l : list A) :
  Forall (fun a => is_ok (f a) = true) l → ∃ bs, comprehension f l = Ok bs.
Proof.
  induction 1 as [|a l Ha _ [bs IH]]; cbn [comprehension]; [by eexists|].
  destruct (f a) as [b|e]; [|done]. cbn [mbind result_bind]. rewrite IH. by eexists.
Qed.

Lemma Moment_init_loads (mj : MomentJson.t) :
  is_ok (Moment.__init__ mj) = true ↔ frame_loads mj.
Proof.
  destruct (Moment_init_cases mj) as (Hflip & Hnone & Hsome). unfold frame_loads. split.
  - intros Hok. split.
    + intros Hu. by rewrite (Hflip Hu) in Hok.
    + intros Hp. destruct (MomentJson.possession mj) eqn:E; [done|].
      assert (Hu : ¬ unflippable mj) by (intros Hu; by rewrite (Hflip Hu) in Hok).
      by rewrite (Hnone Hu eq_refl) in Hok.
  - intros [Hu Hp]. destruct (MomentJson.possession mj) as [p|] eqn:E; [|done].
    by destruct (Hsome Hu p eq_refl) as (m & -> & _).
Qed.

(** X12.  A pair of documents loads into a Match exactly when the referees
    list has a first entry, every player of the roster declares one of the
    two registered team ids, and every frame record has a possession field
    and, in period 2, a y on each location. *)
Theorem X12_match_loads_iff (mj : MatchJson.t) (sj : list MomentJson.t) :
  let h := (Match._get_team_info (MatchJson.home_team mj)).2 in
  let a := (Match._get_team_info (MatchJson.away_team mj)).2 in
  is_ok (Match.__init__ mj sj) = true
  ↔ default [] (MatchJson.referees mj) ≠ []
    ∧ Forall (team_registered h a) (default [] (MatchJson.players mj))
    ∧ Forall frame_loads sj.
Proof.
  intros h a. split.
  - destruct (Match.__init__ mj sj) as [M|e] eqn:HM; [intros _|done].
    apply Match_init_ok_inv in HM as (Hall & _ & _ & _ & _ & _ & Href & _ & _ & Hms).
    split; [|split; [done|]].
    + unfold Match._get_referee in Href. by destruct (default [] (MatchJson.referees mj)).
    + apply comprehension_Forall2 in Hms.
      induction Hms as [|fj m sj' ms Hm _ IH]; constructor; [|done].
      apply Moment_init_loads. by rewrite Hm.
  - intros (Href & Hall & Hframes). unfold Match.__init__.
    unfold Match._get_referee. destruct (default [] (MatchJson.referees mj)); [done|].
    cbn [mbind result_bind]. rewrite get_all_players_spec. fold h a.
    rewrite decide_True by done. cbn [mbind result_bind].
    destruct (comprehension_ok Moment.__init__ sj) as [ms ->]; [|done].
    eapply Forall_impl; [exact Hframes|]. intros fj. apply Moment_init_loads.
Qed.

(** ** Construction: what a Match holds *)

(** X13.  A constructed Match keeps both documents as given, and its
    frames are the frames of the frame records, one per record and in the
    order of the document; the pitch size is the pair of the two pitch
    fields. *)
Theorem X13_match_keeps_documents (mj : MatchJson.t) (sj : list MomentJson.t)
    (M : Match.t) :
  Match.__init__ mj sj = Ok M →
  Match.match_json M = mj
  ∧ Match.structured_json M = sj
  ∧ map Moment.moment_json (Match.moments M) = sj
  ∧ length (Match.moments M) = length sj
  ∧ Match.pitch_size M = (MatchJson.pitch_length mj, MatchJson.pitch_width mj).
Proof.
  intros HM. pose proof (Match_init_ok_inv mj sj M HM) as Hinv.
  destruct Hinv as (_ & _ & _ & _ & _ & _ & _ & _ & _ & Hms).
  unfold Match.__init__ in HM.
  apply bind_ok_inv in HM as (r & _ & HM). apply bind_ok_inv in HM as (ps & _ & HM).
  apply bind_ok_inv in HM as (ms & _ & HM). inversion HM; subst M; clear HM.
  cbn [Match.match_json Match.structured_json Match.pitch_size Match.moments] in *.
  split; [done|]. split; [done|]. split; [|split; [by eapply comprehension_length|done]].
  apply comprehension_Forall2 in Hms.
  induction Hms as [|fj m sj' ms' Hm _ IH]; [done|]. cbn [map]. f_equal; [|done].
  unfold Moment.__init__ in Hm. apply bind_ok_inv in Hm as (locs & _ & Hm).
  apply bind_ok_inv in Hm as (poss & _ & Hm). by inversion Hm.
Qed.

(** X13 at the two-team metadata and two frame records. *)
Lemma X13_match_keeps_documents_witness :
  ∃ M, Match.__init__ (metadata one_referee valid_roster)
         [frame_json 1 (Some 10) (Some "home team"); frame_json 2 None None] = Ok M
       ∧ map Moment.moment_json (Match.moments M)
         = [frame_json 1 (Some 10) (Some "home team"); frame_json 2 None None].
Proof.
  eexists. split; [vm_compute; reflexivity|].
  eapply (X13_match_keeps_documents (metadata one_referee valid_roster)).
  vm_compute. reflexivity.
Defined.

(** X14.  The home list holds the players that declare the home id and the
    away list the others, each in the order of the roster.  When the two
    teams have the same id, an absent id on both included, every player is
    a home player and the away list is empty. *)
Theorem X14_roster_order (mj : MatchJson.t) (sj : list MomentJson.t) (M : Match.t) :
  Match.__init__ mj sj = Ok M →
  let roster := default [] (MatchJson.players mj) in
  map Player.player_json (Match.home_team_players M)
  = filter (fun p => PlayerJson.team_id p = Match.home_team_id M) roster
  ∧ map Player.player_json (Match.away_team_players M)
    = filter (fun p => PlayerJson.team_id p ≠ Match.home_team_id M) roster
  ∧ (Match.home_team_id M = Match.away_team_id M →
     Match.away_team_players M = []
     ∧ map Player.player_json (Match.home_team_players M) = roster).
Proof.
  intros HM roster.
  apply Match_init_ok_inv in HM as (Hall & Hh & Ha & Hhome & Haway & _).
  fold roster in Hall, Hhome, Haway. rewrite Hhome, Haway, Hh, Ha.
  rewrite <- !list_fmap_compose.
  change (Player.player_json ∘ Player.__init__) with (@id PlayerJson.t).
  rewrite !list_fmap_id. split; [done|]. split; [done|]. intros Heq.
  assert (Hhomeall : Forall (fun p => PlayerJson.team_id p
                                      = (Match._get_team_info (MatchJson.home_team mj)).2)
                            roster).
  { eapply Forall_impl; [exact Hall|]. intros p [?|?]; congruence. }
  clear Hall Hhome Haway. subst roster. split.
  - induction Hhomeall as [|p ps Hp _ IH]; [done|].
    rewrite filter_cons_False by (intros Hn; by apply Hn). exact IH.
  - induction Hhomeall as [|p ps Hp _ IH]; [done|].
    rewrite filter_cons_True by done. by rewrite IH.
Qed.

(** X14 at the roster Keane (team 1), Vieira (team 2), Scholes (team 1). *)
Lemma X14_roster_order_witness :
  ∃ M, Match.__init__ (metadata one_referee valid_roster) [] = Ok M
       ∧ map Player.player_json (Match.home_team_players M)
         = [player_entry "Keane" 10 1; player_entry "Scholes" 11 1].
Proof.
  eexists. split; [vm_compute; reflexivity|].
  lazymatch goal with
  | |- map _ (Match.home_team_players ?M) = _ =>
      destruct (X14_roster_order (metadata one_referee valid_roster) [] M eq_refl)
        as [H _]
  end.
  rewrite H. reflexivity.
Defined.

(** X15.  The team lookups of a constructed Match hold the home entry and
    then the away entry.  When the two teams go by the same name the away
    id takes the place of the home id under that name, and when they have
    the same name or the same id the identifier lookup holds the away entry
    alone: the home team can no longer be resolved. *)
Theorem X15_team_lookups (mj : MatchJson.t) (sj : list MomentJson.t) (M : Match.t) :
  Match.__init__ mj sj = Ok M →
  let hn := Match.home_team_name M in
  let an := Match.away_team_name M in
  let hi := Match.home_team_id M in
  let ai := Match.away_team_id M in
  Match.team_to_id M = (if decide (hn = an) then [(an, ai)] else [(hn, hi); (an, ai)])
  ∧ Match.id_to_team M
    = (if decide (hn = an ∨ hi = ai) then [(ai, an)] else [(hi, hn); (ai, an)]).
Proof.
  intros HM. unfold Match.__init__ in HM.
  apply bind_ok_inv in HM as (r & _ & HM). apply bind_ok_inv in HM as (ps & _ & HM).
  apply bind_ok_inv in HM as (ms & _ & HM). inversion HM; subst M; clear HM.
  cbn [Match.home_team_name Match.away_team_name Match.home_team_id Match.away_team_id
       Match.team_to_id Match.id_to_team].
  destruct (Match._get_team_info (MatchJson.home_team mj)) as [hn hi].
  destruct (Match._get_team_info (MatchJson.away_team mj)) as [an ai].
  unfold dict_invert, dict_of_items. cbn [foldl dict_setitem fst snd map].
  destruct (decide (hn = an)) as [->|Hn].
  - cbn [foldl dict_setitem fst snd map]. by rewrite decide_True by auto.
  - cbn [foldl dict_setitem fst snd map].
    destruct (decide (hi = ai)) as [->|Hi].
    + by rewrite decide_True by auto.
    + rewrite decide_False; [done|]. by intros [?|?].
Qed.

(** X15 at the two-team metadata, where names and ids differ. *)
Lemma X15_team_lookups_witness :
  ∃ M, Match.__init__ (metadata one_referee valid_roster) [] = Ok M
       ∧ Match.id_to_team M = [(Some 1, Some "HOM"); (Some 2, Some "AWY")].
Proof.
  eexists. split; [vm_compute; reflexivity|].
  lazymatch goal with
  | |- Match.id_to_team ?M = _ =>
      destruct (X15_team_lookups (metadata one_referee valid_roster) [] M eq_refl)
        as [_ H]
  end.
  rewrite H. reflexivity.
Defined.

(** A key of the items resolves to the value of its last item. *)
Lemma dict_of_items_get {K V} `{EqDecision K} (items : list (K * V)) (k : K) :
  dict_get (dict_of_items items) k = snd <$> last (filter (fun kv => kv.1 = k) items).
Proof.
  unfold dict_of_items.
  assert (H : ∀ d : dict K V,
            dict_get (foldl (fun d kv => dict_setitem d kv.1 kv.2) d items) k
            = match last (filter (fun kv => kv.1 = k) items) with
              | Some kv => Some kv.2
              | None => dict_get d k
              end).
  { induction items as [|kv items IH]; intros d; cbn [foldl]; [done|].
    rewrite IH, dict_get_setitem. rewrite filter_cons.
    destruct (decide (kv.1 = k)) as [Hk|Hk]; [|done].
    rewrite last_cons. by destruct (last _). }
  rewrite H. by destruct (last _).
Qed.

Lemma filter_fmap_comm {A B} (f : A → B) (P : B → Prop) `{!∀ b, Decision (P b)}
    (l : list A) :
  filter P (map f l) = map f (filter (fun a => P (f a)) l).
Proof.
  induction l as [|a l IH]; [done|]. cbn [map].
  rewrite !filter_cons. case_decide; cbn [map]; by rewrite IH.
Qed.

(** X16.  In the name lookup of a constructed Match the referee id resolves
    to "referee", the ball id to "ball" unless it is the referee id as well,
    and any other id to the last name of the last player with that id, home
    players before away players; an id of no player is not a key.  A player
    who shares the id of the ball or the referee is not resolvable. *)
Theorem X16_name_lookup (mj : MatchJson.t) (sj : list MomentJson.t) (M : Match.t)
    (i : option Z) :
  Match.__init__ mj sj = Ok M →
  dict_get (Match.id_to_name M) i
  = if decide (i = Match.referee_id M) then Some (Some REFEREE)
    else if decide (i = Match.ball_id M) then Some (Some BALL)
    else Player.last_name
           <$> last (filter (fun p => Player.player_id p = i) (Match.all_players M)).
Proof.
  intros HM.
  apply Match_init_ok_inv in HM as (_ & _ & _ & _ & _ & Hall & _ & _ & Hlk & _).
  apply (f_equal fst) in Hlk. cbn [fst Match._build_lookups] in Hlk.
  rewrite Hlk, Hall, !dict_get_setitem.
  destruct (decide (Match.referee_id M = i)) as [<-|Hr].
  - by rewrite decide_True.
  - rewrite (decide_False (P := i = Match.referee_id M)) by done.
    destruct (decide (Match.ball_id M = i)) as [<-|Hb].
    + by rewrite decide_True.
    + rewrite (decide_False (P := i = Match.ball_id M)) by done.
      rewrite dict_of_items_get.
      rewrite (filter_fmap_comm
                 (fun p => (Player.player_id p, Player.last_name p))
                 (fun kv => kv.1 = i)).
      cbn [fst]. rewrite fmap_last, <- option_fmap_compose. done.
Qed.

(** X16 at the two-team metadata: id 20 is Vieira, id 55 the ball. *)
Lemma X16_name_lookup_witness :
  ∃ M, Match.__init__ (metadata one_referee valid_roster) [] = Ok M
       ∧ dict_get (Match.id_to_name M) (Some 20) = Some (Some "Vieira")
       ∧ dict_get (Match.id_to_name M) (Some 55) = Some (Some "ball").
Proof.
  eexists. split; [vm_compute; reflexivity|]. split.
  - rewrite (X16_name_lookup (metadata one_referee valid_roster) [] _ (Some 20))
      by reflexivity.
    reflexivity.
  - rewrite (X16_name_lookup (metadata one_referee valid_roster) [] _ (Some 55))
      by reflexivity.
    reflexivity.
Defined.

(** ** Segmentation and the order of the input *)

Lemma StronglySorted_unique_on {A} (R : A → A → Prop) (l1 l2 : list A) :
  (∀ x y, x ∈ l1 → y ∈ l1 → R x y → R y x → x = y) →
  StronglySorted R l1 → StronglySorted R l2 → l1 ≡ₚ l2 → l1 = l2.
Proof.
  intros Hanti Hs1. revert l2. induction Hs1 as [|x l1 Hs1 IH Hx]; intros l2 Hs2 Hp.
  - by apply Permutation_nil_l in Hp.
  - destruct l2 as [|y l2]; [by apply Permutation_nil_r in Hp|].
    apply StronglySorted_cons in Hs2 as [Hy Hs2].
    rewrite Forall_forall in Hx, Hy.
    assert (x = y) as <-.
    { assert (Hx2 : x ∈ y :: l2) by (rewrite <- Hp; by left).
      assert (Hy1 : y ∈ x :: l1) by (rewrite Hp; by left).
      apply elem_of_cons in Hx2 as [?|Hx2]; [done|].
      apply elem_of_cons in Hy1 as [?|Hy1]; [done|].
      apply Hanti; [by left | by right | by apply Hx | by apply Hy]. }
    f_equal. apply IH; [|done|by apply Permutation_cons_inv in Hp].
    intros a b Ha Hb. apply Hanti; by right.
Qed.

Lemma NoDup_fmap_inj_on {A B} (f : A → B) (l : list A) (x y : A) :
  NoDup (f <$> l) → x ∈ l → y ∈ l → f x = f y → x = y.
Proof.
  induction l as [|a l IH]; [by intros _ ?%not_elem_of_nil|].
  rewrite fmap_cons, NoDup_cons. intros [Ha Hnd] Hx Hy Hxy.
  apply elem_of_cons in Hx as [->|Hx]; apply elem_of_cons in Hy as [->|Hy]; [done|..].
  - destruct Ha. rewrite Hxy. by apply list_elem_of_fmap_2.
  - destruct Ha. rewrite <- Hxy. by apply list_elem_of_fmap_2.
  - by apply IH.
Qed.

Lemma sorted_by_key_order_free {A} (key : A → option Z) (l l' : list A) :
  l ≡ₚ l' → NoDup (key <$> l) → sorted_by_key key l = sorted_by_key key l'.
Proof.
  intros Hp Hnd.
  assert (Hraise : ∀ l1 l2 : list A, l1 ≡ₚ l2 →
            sorted_by_key key l1 = Raise TypeError → sorted_by_key key l2 = Raise TypeError).
  { intros l1 l2 H12 H. apply sorted_by_key_raises in H as (_ & Hlen & Hex).
    apply sorted_by_key_raises. split; [done|]. by rewrite <- H12. }
  destruct (sorted_by_key key l) as [s|e] eqn:Hs, (sorted_by_key key l') as [s'|e'] eqn:Hs'.
  - f_equal.
    pose proof (sorted_by_key_perm _ _ _ Hs) as Hps.
    pose proof (sorted_by_key_perm _ _ _ Hs') as Hps'.
    eapply StronglySorted_unique_on;
      [|by eapply sorted_by_key_sorted|by eapply sorted_by_key_sorted|by rewrite Hps, Hps'].
    intros x y Hx Hy (a & b & Ha & Hb & Hab) (b' & a' & Hb' & Ha' & Hba).
    apply (NoDup_fmap_inj_on key s); [by rewrite Hps|done..|].
    rewrite Ha, Hb. f_equal. simplify_eq. lia.
  - pose proof (proj1 (sorted_by_key_raises _ _ _) Hs') as (-> & _).
    symmetry in Hp. by rewrite (Hraise _ _ Hp Hs') in Hs.
  - pose proof (proj1 (sorted_by_key_raises _ _ _) Hs) as (-> & _).
    by rewrite (Hraise _ _ Hp Hs) in Hs'.
  - pose proof (proj1 (sorted_by_key_raises _ _ _) Hs) as (-> & _).
    by pose proof (proj1 (sorted_by_key_raises _ _ _) Hs') as (-> & _).
Qed.

(** X17.  When no two frames have the same frame index, the segmentation
    does not depend on the order in which the frames are given: any
    rearrangement of the input gives the same result, the same exception
    included. *)
Theorem X17_segmentation_order_free (ms ms' : list Moment.t) :
  ms ≡ₚ ms' → NoDup (map Moment.frame ms) →
  Analysis._build_possession_strings ms' = Analysis._build_possession_strings ms.
Proof.
  intros Hp Hnd. unfold Analysis._build_possession_strings.
  by rewrite (sorted_by_key_order_free Moment.frame ms ms' Hp Hnd).
Qed.

(** X17 at the frames 2, 1 against 1, 2. *)
Lemma X17_segmentation_order_free_witness :
  Analysis._build_possession_strings
    [frame_of 2 (Some 10) (Some "home team"); frame_of 1 None None]
  = Analysis._build_possession_strings
      [frame_of 1 None None; frame_of 2 (Some 10) (Some "home team")].
Proof.
  apply X17_segmentation_order_free.
  - apply perm_swap.
  - apply (bool_decide_unpack _). vm_compute. reflexivity.
Defined.

(** ** The location table *)

(** X18.  The location table has one row per distinct [(frame, time)] pair;
    the row of a pair is built from the last frame that carries it, and
    inside a row an object identifier resolves to the coordinate of the last
    location with that identifier.  A pair of no frame and an identifier of
    no location are not keys. *)
Theorem X18_location_table_lookup (self : Analysis.t) :
  NoDup (dict_keys (location_dict self))
  ∧ (∀ key, dict_get (location_dict self) key
            = location_row
                <$> last (filter (fun m => (Moment.frame m, Moment.time m) = key)
                                 (Match.moments (Analysis.match_ self))))
  ∧ (∀ m o, dict_get (location_row m) o
            = (fun l => Coordinate.__init__ (Location.x l) (Location.y l) (Location.z l))
                <$> last (filter (fun l => Location.location_id l = o)
                                 (Moment.locations m))).
Proof.
  split; [apply dict_of_items_NoDup|]. split.
  - intros key. unfold location_dict. rewrite dict_of_items_get.
    rewrite (filter_fmap_comm
               (fun m => ((Moment.frame m, Moment.time m), location_row m))
               (fun kv => kv.1 = key)).
    cbn [fst]. by rewrite fmap_last, <- option_fmap_compose.
  - intros m o. unfold location_row. rewrite dict_of_items_get.
    rewrite (filter_fmap_comm
               (fun l => (Location.location_id l,
                          Coordinate.__init__ (Location.x l) (Location.y l) (Location.z l)))
               (fun kv => kv.1 = o)).
    cbn [fst]. by rewrite fmap_last, <- option_fmap_compose.
Qed.

Lemma Location_init_fields (lj : LocationJson.t) (period : option Z) (loc : Location.t) :
  Location.__init__ lj period = Ok loc →
  Location.location_json loc = lj
  ∧ Location.x loc = LocationJson.x lj
  ∧ Location.y loc = LocationJson.y lj
  ∧ Location.z loc = LocationJson.z lj
  ∧ Location.location_id loc = LocationJson.trackable_object lj
  ∧ Location.track_id loc = LocationJson.track_id lj.
Proof.
  unfold Location.__init__. intros H. apply bind_ok_inv in H as (ny & _ & H).
  by inversion H.
Qed.

(** X19.  The coordinates of the location table are the recorded ones: an
    entry of the row of a constructed frame holds the x, y and z of a
    location record of that frame with the entry's object identifier.  The
    period-2 flip is not applied to it: the normalized y of the location is
    the negation of the y of the table in period 2. *)
Theorem X19_location_table_raw (mj : MomentJson.t) (m : Moment.t) (o : option Z)
    (c : Coordinate.t) :
  Moment.__init__ mj = Ok m →
  dict_get (location_row m) o = Some c →
  ∃ loc, loc ∈ Moment.locations m
         ∧ Location.location_json loc ∈ default [] (MomentJson.data mj)
         ∧ LocationJson.trackable_object (Location.location_json loc) = o
         ∧ Coordinate.x c = LocationJson.x (Location.location_json loc)
         ∧ Coordinate.y c = LocationJson.y (Location.location_json loc)
         ∧ Coordinate.z c = LocationJson.z (Location.location_json loc)
         ∧ Location.normalized_y loc
           = if decide (MomentJson.period mj = Some 2)
             then pynum_neg <$> Coordinate.y c else Coordinate.y c.
Proof.
  intros Hm Hget.
  destruct (Moment_locations_normalized mj m Hm) as [Hhalf Hnorm].
  assert (Hlocs : Forall2 (fun lj loc => Location.__init__ lj (MomentJson.period mj) = Ok loc)
                    (default [] (MomentJson.data mj)) (Moment.locations m)).
  { unfold Moment.__init__ in Hm. apply bind_ok_inv in Hm as (locs & Hlocs & Hm).
    apply bind_ok_inv in Hm as (poss & _ & Hm). inversion Hm; subst; clear Hm.
    by apply comprehension_Forall2. }
  unfold location_row in Hget. rewrite dict_of_items_get in Hget.
  rewrite (filter_fmap_comm
             (fun l => (Location.location_id l,
                        Coordinate.__init__ (Location.x l) (Location.y l) (Location.z l)))
             (fun kv => kv.1 = o)) in Hget.
  cbn [fst] in Hget. rewrite fmap_last, <- option_fmap_compose in Hget.
  destruct (last _) as [loc|] eqn:Hlast; [|done]. inversion Hget; subst c; clear Hget.
  apply last_Some_elem_of, list_elem_of_filter in Hlast as [Hid Hin].
  exists loc. split; [done|].
  rewrite Forall_forall in Hnorm. pose proof (Hnorm loc Hin) as Hny.
  rewrite Hhalf in Hny.
  apply list_elem_of_lookup in Hin as [i Hi].
  destruct (Forall2_lookup_r _ _ _ _ _ Hlocs Hi) as (lj & Hlj & Hinit).
  apply Location_init_fields in Hinit as (Hjson & Hx & Hy & Hz & Hoid & _).
  rewrite Hjson. cbn [Coordinate.__init__ Coordinate.x Coordinate.y Coordinate.z].
  split; [by eapply list_elem_of_lookup_2|].
  split; [by rewrite <- Hoid|]. split; [done|]. split; [done|]. split; [done|].
  exact Hny.
Qed.

(** X19 at a period-2 frame with one location of object 10 at y = 7: the
    table holds 7, the normalized y is -7. *)
Lemma X19_location_table_raw_witness :
  ∃ m loc,
    Moment.__init__ (located_frame_json 1 2 (PyInt 7)) = Ok m
    ∧ loc ∈ Moment.locations m
    ∧ (Coordinate.y <$> dict_get (location_row m) (Some 10)) = Some (Some (PyInt 7))
    ∧ Location.normalized_y loc = Some (PyInt (-7)).
Proof.
  destruct (X19_location_table_raw (located_frame_json 1 2 (PyInt 7)) _ (Some 10) _
              eq_refl eq_refl)
    as (loc & Hin & _ & _ & _ & _ & _ & Hny).
  eexists. exists loc. split; [reflexivity|]. split; [exact Hin|].
  split; [reflexivity|]. exact Hny.
Defined.

(** ** Segmentation: which frames come back *)

(** The scan keeps the buffer in one group, which is the previous group and
    differs from the group of the last frame stored before it. *)
Lemma scan_last_run (ms : list Moment.t) (st : Analysis.scan) :
  Forall (fun m => Moment.possession_group m = Analysis.previous_possession st)
         (Analysis.possession_buffer st) →
  (∀ m, last (concat (Analysis.possession_strings st)) = Some m →
        Moment.possession_group m ≠ Analysis.previous_possession st) →
  (Analysis.possession_buffer st = [] → concat (Analysis.possession_strings st) = []) →
  let st' := foldl Analysis.scan_step st ms in
  Forall (fun m => Moment.possession_group m = Analysis.previous_possession st')
         (Analysis.possession_buffer st')
  ∧ (∀ m, last (concat (Analysis.possession_strings st')) = Some m →
          Moment.possession_group m ≠ Analysis.previous_possession st').
Proof.
  revert st. induction ms as [|m ms IH]; intros st Hbuf Hlast Hnil; [done|].
  rewrite scan_cons. apply IH; unfold Analysis.scan_step; case_decide as Hch; simpl.
  - by repeat constructor.
  - apply Forall_app. split; [|by repeat constructor].
    eapply Forall_impl; [exact Hbuf|]. intros m' Hm'. simpl in Hm'. congruence.
  - intros m'. rewrite concat_app. simpl. rewrite app_nil_r.
    destruct (Analysis.possession_buffer st) as [|b buf] eqn:Hb.
    + rewrite (Hnil eq_refl). done.
    + rewrite last_app. cbn [last].
      destruct (last (b :: buf)) as [m''|] eqn:Hl; [|by apply last_None in Hl].
      intros [= <-]. apply last_Some_elem_of in Hl.
      rewrite Forall_forall in Hbuf. rewrite (Hbuf m'' Hl). done.
  - intros m' Hm'. apply Hlast in Hm'. congruence.
  - done.
  - intros Hn. by destruct (Analysis.possession_buffer st).
Qed.

Lemma concat_kept_segments (segs : list (list Moment.t)) :
  Forall one_group segs →
  concat (filter (fun p => Analysis.not_none_string p = true) segs)
  = filter (fun m => ¬ null_group m) (concat segs).
Proof.
  induction 1 as [|p segs [g Hg] _ IH]; [done|].
  rewrite filter_cons. cbn [concat]. rewrite filter_app, <- IH.
  destruct (Analysis.not_none_string p) eqn:Hp.
  - rewrite decide_True by done. cbn [concat]. f_equal.
    destruct p as [|m p]; [done|].
    assert (Hnn : g ≠ None).
    { intros ->. assert (Analysis.not_none_string (m :: p) = false) as Hf
        by (apply not_none_string_false; by split).
      congruence. }
    symmetry. clear -Hg Hnn. induction Hg as [|m' p' Hm' _ IHp]; [done|].
    rewrite filter_cons_True by (unfold null_group; congruence). by rewrite IHp.
  - rewrite decide_False by done. apply not_none_string_false in Hp as [_ Hnull].
    assert (Hempty : filter (fun m => ¬ null_group m) p = []).
    { clear -Hnull. induction Hnull as [|m' p' Hm' _ IHp]; [done|].
      rewrite filter_cons_False by (intros Hn; by apply Hn). exact IHp. }
    by rewrite Hempty.
Qed.

(** X20.  The frames that come back are the frames with a group of the
    input in frame order, less its whole final run: the sorted input is a
    first part followed by a last run of one group, which starts where the
    group last changes and is not empty for a non-empty input, and the
    segments hold exactly the frames of the first part that have a group. *)
Theorem X20_final_run_dropped (ms sorted : list Moment.t) (segs : list (list Moment.t)) :
  sorted_by_key Moment.frame ms = Ok sorted →
  Analysis._build_possession_strings ms = Ok segs →
  ∃ first_part last_run,
    sorted = first_part ++ last_run
    ∧ concat segs = filter (fun m => ¬ null_group m) first_part
    ∧ one_group last_run
    ∧ (ms ≠ [] → last_run ≠ [])
    ∧ (∀ m m', last first_part = Some m → head last_run = Some m' →
               Moment.possession_group m ≠ Moment.possession_group m').
Proof.
  intros Hs Hb. unfold Analysis._build_possession_strings in Hb. rewrite Hs in Hb.
  cbn [mbind result_bind] in Hb. inversion Hb; subst segs; clear Hb.
  set (st := foldl Analysis.scan_step Analysis.scan_init sorted).
  exists (concat (Analysis.possession_strings st)), (Analysis.possession_buffer st).
  pose proof (scan_frames sorted Analysis.scan_init) as Hfr. simpl in Hfr. fold st in Hfr.
  destruct (scan_one_group sorted Analysis.scan_init) as [Hone _]; [constructor..|].
  fold st in Hone.
  destruct (scan_last_run sorted Analysis.scan_init) as [Hbuf Hlast];
    [constructor | done | done |]. fold st in Hbuf, Hlast.
  split; [done|]. split; [by apply concat_kept_segments|].
  split; [by exists (Analysis.previous_possession st)|]. split.
  - intros Hne. subst st. apply scan_buffer_nonempty. left. intros ->.
    apply sorted_by_key_perm, Permutation_nil_l in Hs. done.
  - intros m m' Hm Hm'. apply Hlast in Hm.
    destruct (Analysis.possession_buffer st) as [|b buf]; [done|].
    inversion Hm'; subst m'. apply Forall_cons in Hbuf as [Hb _]. congruence.
Qed.

(** X20 at the frames 1 to 7 of the two-team example: the last run is the
    null frame 7, and the segments hold frames 1, 2, 4, 5 and 6. *)
Lemma X20_final_run_dropped_witness :
  ∃ first_part last_run,
    example_frames "home team" "away team" = first_part ++ last_run
    ∧ concat [ [];
               [frame_of 1 (Some 10) (Some "home team");
                frame_of 2 (Some 11) (Some "home team")];
               [frame_of 4 (Some 20) (Some "away team");
                frame_of 5 (Some 20) (Some "away team");
                frame_of 6 (Some 21) (Some "away team")] ]
      = filter (fun m => ¬ null_group m) first_part
    ∧ last_run ≠ [].
Proof.
  destruct (X20_final_run_dropped (example_frames "home team" "away team")
              (example_frames "home team" "away team")
              [ [];
                [frame_of 1 (Some 10) (Some "home team");
                 frame_of 2 (Some 11) (Some "home team")];
                [frame_of 4 (Some 20) (Some "away team");
                 frame_of 5 (Some 20) (Some "away team");
                 frame_of 6 (Some 21) (Some "away team")] ])
    as (first_part & last_run & Hsplit & Hsegs & _ & Hne & _).
  - vm_compute. reflexivity.
  - vm_compute. reflexivity.
  - exists first_part, last_run. split; [exact Hsplit|]. split; [exact Hsegs|].
    apply Hne. discriminate.
Defined.
